(** * The worker-resource protocol of effection-contrib

    A shallow embedding of [workerMain] (the worker-side runtime) and
    [useWorker] (the host-side resource) of the worker package, and of the
    two private helpers [useMessageChannel] and [settled].

    Both functions are generators driven by the effection runtime.  They are
    embedded as labelled transition systems: a state records what the
    generator holds between two suspension points, and one event is what is
    run, without interruption, from one suspension point to the next (a
    JavaScript realm runs one callback at a time).  The environment chooses
    which enabled event comes next, so every interleaving is covered.

    Line numbers refer to src/jsonl-store/types.ts.  The runtime itself
    (npm:effection) is not part of the repository; the steps below rely on
    the following of it:
    - [spawn] starts a task in the scope of its caller, and a task that
      ends, or a [scoped] block that returns, halts the tasks spawned in its
      scope;
    - halting a generator makes it return where it is suspended, so its
      [finally] blocks run and its [catch] blocks do not;
    - a [resource] generator stays suspended in [provide] until the scope
      holding the resource ends, and is then made to return;
    - [on] and [once] deliver the events of one target in posting order. *)

From Stdlib Require Import List String Ascii Arith Bool Lia.
Import ListNotations.
Open Scope string_scope.
Open Scope list_scope.

(** ** Values shared by both sides *)

(** A JavaScript [Error], reduced to its message. *)
Record Error := mkError { message : string }.

(** effection's [Result<T>]: [{ ok: true, value }] or [{ ok: false, error }]. *)
Inductive Result (T : Type) : Type :=
| Ok (value : T)
| Err (error : Error).
Arguments Ok {T} value.
Arguments Err {T} error.

(** How a generator ends when it ends by itself: [return value] or a throw. *)
Inductive Completion (T : Type) : Type :=
| Returned (value : T)
| Thrown (error : Error).
Arguments Returned {T} value.
Arguments Thrown {T} error.

(** An [Operation<T>] is represented by the way it eventually completes;
    [None] is an operation that stays suspended until it is halted. *)
Definition Operation (T : Type) : Type := option (Completion T).

(** [try { let x = yield* op; k(Ok(x)) } catch (error) { k(Err(error)) }]:
    the shape shared by the request handler (lines 82-87) and by the body
    task (lines 75-98) of [workerMain]. *)
Definition try_result {T : Type} (c : Completion T) : Result T :=
  match c with
  | Returned value => Ok value
  | Thrown error => Err error
  end.

(** Modelled from the spec: [withResolvers] is imported from npm:effection
    and its code is not under src/.  The spec says that only one resolution
    is honored and later attempts are no-ops (first writer wins).  The state
    of a resolver pair is the completion of its [operation]: [None] while
    pending, [Returned v] after [resolve(v)], [Thrown e] after [reject(e)]. *)
Definition settle {T : Type} (c : Completion T) (outcome : Operation T)
  : Operation T :=
  match outcome with
  | None => Some c
  | Some first => Some first
  end.

Definition resolve {T : Type} (value : T) : Operation T -> Operation T :=
  settle (Returned value).

Definition reject {T : Type} (error : Error) : Operation T -> Operation T :=
  settle (Thrown error).

(** [settled(operation)] (lines 215-226): runs [operation] inside try/catch
    and returns [Ok()] or [Err(error)]. *)
Definition settled {T : Type} (operation : Operation T)
  : Operation (Result unit) :=
  match operation with
  | Some (Returned _) => Some (Returned (Ok tt))
  | Some (Thrown error) => Some (Returned (Err error))
  | None => None
  end.

(** A [MessageChannel] is named by a number; [port2] of channel [n] is what
    travels in a [send] control message and [port1] stays with the caller. *)
Definition MessagePort : Type := nat.

(** List helpers: replace, and remove, the element at a position. *)
Fixpoint update {A : Type} (i : nat) (x : A) (l : list A) : list A :=
  match l, i with
  | [], _ => []
  | _ :: t, 0 => x :: t
  | h :: t, S j => h :: update j x t
  end.

Fixpoint drop {A : Type} (i : nat) (l : list A) : list A :=
  match l, i with
  | [], _ => []
  | _ :: t, 0 => t
  | h :: t, S j => h :: drop j t
  end.

Definition quote : string := String (ascii_of_nat 34) EmptyString.

Section Protocol.

Context {TSend TRecv TReturn TData : Type}.

(** ** Wire messages *)

(** [WorkerControl<TSend, TData>] (lines 47-56), host to worker. *)
Inductive WorkerControl : Type :=
| Init (data : TData)
| Send (value : TSend) (response : MessagePort)
| Close.

(** Worker to host: [{ type: "open" }] and [{ type: "close", result }].
    The host only inspects the [type] field, and [result] when the type is
    ["close"]. *)
Record LifecycleMessage : Type := mkLifecycle {
  type : string;
  result : option (Result TReturn)
}.

Definition open_message : LifecycleMessage := mkLifecycle "open" None.

Definition close_message (r : Result TReturn) : LifecycleMessage :=
  mkLifecycle "close" (Some r).

(** ** Worker side: [workerMain] *)

(** What the worker has posted, in order: [self.postMessage] goes to the
    host's worker object, [response.postMessage] to one response port. *)
Inductive Post : Type :=
| ToHost (m : LifecycleMessage)
| ToPort (response : MessagePort) (r : Result TRecv).

(** Modelled from the spec: [createSignal] and [each] are imported from
    npm:effection and their code is not under src/.  The spec only says that
    the body iterates pending [send] payloads; following the library's
    documentation, a signal keeps one queue per live subscription and
    [send] appends the value to every one of them, so a value sent while
    nothing is subscribed reaches no queue.  One record is one running
    [forEach]: its owner (the body task it runs in), its handler [fn], and
    the payloads not yet iterated. *)
Record Subscription : Type := mkSubscription {
  sub_owner : nat;
  sub_fn : TSend -> Operation TRecv;
  sub_queue : list (TSend * MessagePort)
}.

(** One task spawned at line 81: it runs [fn(value)] and answers on
    [response]. *)
Record Handler : Type := mkHandler {
  task_owner : nat;
  task_response : MessagePort;
  task_op : Operation TRecv
}.

(** One task spawned at line 74: the [data] it was started with, and
    whether it is still running. *)
Record BodyTask : Type := mkBody {
  body_data : TData;
  body_running : bool
}.

Definition stop (b : BodyTask) : BodyTask := mkBody (body_data b) false.

Record Worker : Type := mkWorker {
  outcome : Operation (Result TReturn);
  bodies : list BodyTask;
  sent : list Subscription;
  handlers : list Handler;
  finalized : bool;
  posts : list Post
}.

(** [new Error(`worker terminated`)] (line 104). *)
Definition terminated : Error := mkError "worker terminated".

(** The state when [main] reaches [scoped] (lines 62-66): the signal, the
    subscription to control messages and the resolver pair exist, and
    [{ type: "open" }] has been posted. *)
Definition boot : Worker :=
  mkWorker None [] [] [] false [ToHost open_message].

Inductive Event : Type :=
| Control (control : WorkerControl)
| ForEach (b : nat) (fn : TSend -> Operation TRecv)
| Iterate (s : nat)
| Answer (h : nat)
| BodyEnd (b : nat) (c : Completion TReturn)
| Finish.

(** [sent.send({ value, response })] (line 102). *)
Definition enqueue (item : TSend * MessagePort) (s : Subscription)
  : Subscription :=
  mkSubscription (sub_owner s) (sub_fn s) (sub_queue s ++ [item]).

(** One turn of the dispatch loop (lines 72-106) on one control message. *)
Definition dispatch (control : WorkerControl) (w : Worker) : Worker :=
  match control with
  | Init data =>
      mkWorker (outcome w) (bodies w ++ [mkBody data true]) (sent w) (handlers w)
        (finalized w) (posts w)
  | Send value response =>
      mkWorker (outcome w) (bodies w)
        (map (enqueue (value, response)) (sent w)) (handlers w)
        (finalized w) (posts w)
  | Close =>
      mkWorker (resolve (Err terminated) (outcome w)) (bodies w) (sent w)
        (handlers w) (finalized w) (posts w)
  end.

Definition owned_by (b : nat) (owner : nat) : bool := Nat.eqb owner b.

(** One step of the worker.  [None] means that the event cannot happen in
    that state.
    - [Control c]: [controls.next()] delivers [c] to the dispatch loop.
    - [ForEach b fn]: body task [b] calls [messages.forEach(fn)] and
      [each(sent)] subscribes (line 80).
    - [Iterate s]: the loop of subscription [s] takes its next payload and
      spawns the handler task (lines 80-89).
    - [Answer h]: [fn(value)] of handler task [h] completes and the task
      posts on its response port (lines 83-86).
    - [BodyEnd b c]: body task [b] returns or throws (lines 95, 97); what it
      spawned is halted with it.
    - [Finish]: [outcome.operation] resumes [main], [scoped] halts every
      task spawned inside it, and the result is posted (lines 110-112). *)
Definition step (e : Event) (w : Worker) : option Worker :=
  if finalized w then None else
  match e with
  | Control control => Some (dispatch control w)
  | ForEach b fn =>
      match nth_error (bodies w) b with
      | Some body =>
          if body_running body then
            Some (mkWorker (outcome w) (bodies w)
                    (sent w ++ [mkSubscription b fn []]) (handlers w)
                    (finalized w) (posts w))
          else None
      | None => None
      end
  | Iterate s =>
      match nth_error (sent w) s with
      | Some sub =>
          match sub_queue sub with
          | (value, response) :: rest =>
              Some (mkWorker (outcome w) (bodies w)
                      (update s (mkSubscription (sub_owner sub) (sub_fn sub)
                                   rest) (sent w))
                      (handlers w ++ [mkHandler (sub_owner sub) response
                                        (sub_fn sub value)])
                      (finalized w) (posts w))
          | [] => None
          end
      | None => None
      end
  | Answer h =>
      match nth_error (handlers w) h with
      | Some task =>
          match task_op task with
          | Some c =>
              Some (mkWorker (outcome w) (bodies w) (sent w)
                      (drop h (handlers w)) (finalized w)
                      (posts w ++ [ToPort (task_response task)
                                     (try_result c)]))
          | None => None
          end
      | None => None
      end
  | BodyEnd b c =>
      match nth_error (bodies w) b with
      | Some body =>
          if body_running body then
            Some (mkWorker (resolve (try_result c) (outcome w))
                    (update b (stop body) (bodies w))
                    (filter (fun s => negb (owned_by b (sub_owner s)))
                       (sent w))
                    (filter (fun t => negb (owned_by b (task_owner t)))
                       (handlers w))
                    (finalized w) (posts w))
          else None
      | None => None
      end
  | Finish =>
      match outcome w with
      | Some (Returned r) =>
          Some (mkWorker (outcome w) (map stop (bodies w)) [] []
                  true (posts w ++ [ToHost (close_message r)]))
      | _ => None
      end
  end.

Fixpoint run (events : list Event) (w : Worker) : option Worker :=
  match events with
  | [] => Some w
  | e :: rest =>
      match step e w with
      | Some w' => run rest w'
      | None => None
      end
  end.

(** The three states of the spec, read off the worker's state. *)
Inductive Phase : Type := AwaitingInit | Running | Finalized.

Definition phase (w : Worker) : Phase :=
  if finalized w then Finalized
  else match bodies w with
       | [] => AwaitingInit
       | _ :: _ => Running
       end.

(** ** Host side: [useWorker] *)

(** Why the scope that holds the resource ends.  [Failed] includes the task
    of lines 164-168, which rethrows an ["error"] event of the worker. *)
Inductive ExitReason : Type :=
| Completed
| Failed (error : Error)
| Cancelled.

(** Where the resource generator is suspended, or how it ended.
    [Dropped] is the generator made to return while it awaits the first
    message (line 157): it is not yet inside [try], so no [finally] runs. *)
Inductive Scope : Type :=
| Acquiring
| Dropped (reason : ExitReason)
| Rejected (error : Error)
| Provided
| Releasing (reason : ExitReason)
| Aborted (error : Error)
| Released (reason : ExitReason) (captured : Result unit).

Inductive CallState : Type :=
| Pending
| Resumed (c : Completion TRecv)
| Halted.

(** One call of the handle's [send]; its position in [calls] is the number
    of the [MessageChannel] that [useMessageChannel] created for it. *)
Record SendCall : Type := mkCall {
  call_value : TSend;
  call_state : CallState
}.

Record Host : Type := mkHost {
  data : TData;
  scope : Scope;
  h_outcome : Operation TReturn;
  onclose_attached : bool;
  posted : list WorkerControl;
  calls : list SendCall
}.

(** The state after lines 139-155, suspended in [subscription.next()]. *)
Definition acquire (d : TData) : Host :=
  mkHost d Acquiring None true [] [].

(** The listener [onclose] (lines 144-153).  With [type] equal to ["close"]
    and no [result], reading [result.ok] throws inside the listener and the
    outcome is left as it was. *)
Definition onclose (m : LifecycleMessage) (o : Operation TReturn)
  : Operation TReturn :=
  if (type m =? "close")%string then
    match result m with
    | Some (Ok value) => resolve value o
    | Some (Err error) => reject error o
    | None => o
    end
  else o.

(** The error of the failed [assert] (lines 159-162). *)
Definition assertion_error (actual : string) : Error :=
  mkError (String.append
             "expected first message to arrive from worker to be of type "
             (String.append quote (String.append "open" (String.append quote
                (String.append ", but was: " actual))))).

(** The end of [send] (lines 186-191). *)
Definition send_result (r : Result TRecv) : Completion TRecv :=
  match r with
  | Ok value => Returned value
  | Err error => Thrown error
  end.

(** The [finally] block from line 197 on: [yield* settled(outcome.operation)]
    and then [removeEventListener].  While the outcome is pending the block
    stays suspended; were [settled] to throw, line 198 would be skipped. *)
Definition finally_resume (reason : ExitReason) (h : Host) : Host :=
  match settled (h_outcome h) with
  | Some (Returned captured) =>
      mkHost (data h) (Released reason captured) (h_outcome h) false
        (posted h) (calls h)
  | Some (Thrown error) =>
      mkHost (data h) (Aborted error) (h_outcome h) (onclose_attached h)
        (posted h) (calls h)
  | None =>
      mkHost (data h) (Releasing reason) (h_outcome h) (onclose_attached h)
        (posted h) (calls h)
  end.

(** Halting a caller that is suspended in [once(channel.port1, "message")]:
    [useMessageChannel] closes both ports (lines 208-211). *)
Definition halt (call : SendCall) : SendCall :=
  match call_state call with
  | Pending => mkCall (call_value call) Halted
  | _ => call
  end.

Inductive HostEvent : Type :=
| Message (m : LifecycleMessage)
| CallSend (value : TSend)
| Reply (channel : MessagePort) (r : Result TRecv)
| Exit (reason : ExitReason).

(** One step of the host.
    - [Message m]: a ["message"] event of the worker; [onclose] sees it when
      attached, and the first one ends the wait of line 157.
    - [CallSend v]: the handle's [send(v)] up to its suspension (lines
      178-185).  The handle exists once line 176 has provided it; [send]
      looks at no state of the resource, so a caller that kept the handle
      still posts [send] after the scope has ended, after [close].
    - [Reply channel r]: a ["message"] event on [port1] of that channel.
    - [Exit reason]: the scope holding the resource ends.  A generator
      suspended in [provide] is made to return and runs [finally], and the
      callers suspended in [send] at that moment are halted with the scope.
      A generator still awaiting the first message (line 157) is made to
      return outside [try]: nothing is posted and [onclose] stays attached.
      A generator that has ended takes no exit. *)
Definition hstep (e : HostEvent) (h : Host) : option Host :=
  match e with
  | Message m =>
      let o := if onclose_attached h then onclose m (h_outcome h)
               else h_outcome h in
      match scope h with
      | Acquiring =>
          if (type m =? "open")%string then
            Some (mkHost (data h) Provided o (onclose_attached h)
                    (posted h ++ [Init (data h)]) (calls h))
          else
            Some (mkHost (data h) (Rejected (assertion_error (type m))) o
                    (onclose_attached h) (posted h) (calls h))
      | Releasing reason =>
          Some (finally_resume reason
                  (mkHost (data h) (scope h) o (onclose_attached h)
                     (posted h) (calls h)))
      | _ =>
          Some (mkHost (data h) (scope h) o (onclose_attached h)
                  (posted h) (calls h))
      end
  | CallSend value =>
      match scope h with
      | Acquiring | Dropped _ | Rejected _ => None
      | _ =>
          Some (mkHost (data h) (scope h) (h_outcome h) (onclose_attached h)
                  (posted h ++ [Send value (List.length (calls h))])
                  (calls h ++ [mkCall value Pending]))
      end
  | Reply channel r =>
      match nth_error (calls h) channel with
      | Some call =>
          match call_state call with
          | Pending =>
              Some (mkHost (data h) (scope h) (h_outcome h)
                      (onclose_attached h) (posted h)
                      (update channel
                         (mkCall (call_value call) (Resumed (send_result r)))
                         (calls h)))
          | _ => None
          end
      | None => None
      end
  | Exit reason =>
      match scope h with
      | Acquiring =>
          Some (mkHost (data h) (Dropped reason) (h_outcome h)
                  (onclose_attached h) (posted h) (calls h))
      | Provided =>
          Some (finally_resume reason
                  (mkHost (data h) (scope h) (h_outcome h)
                     (onclose_attached h) (posted h ++ [Close])
                     (map halt (calls h))))
      | _ => None
      end
  end.

Fixpoint hrun (events : list HostEvent) (h : Host) : option Host :=
  match events with
  | [] => Some h
  | e :: rest =>
      match hstep e h with
      | Some h' => hrun rest h'
      | None => None
      end
  end.

(** ** Both sides connected by the worker's message transport *)

(** [dispatched] counts the control messages the dispatch loop has taken,
    [observed] the lifecycle messages that have reached the host; both
    directions deliver in posting order. *)
Record System : Type := mkSystem {
  host : Host;
  worker : Worker;
  dispatched : nat;
  observed : nat
}.

Fixpoint lifecycle (l : list Post) : list LifecycleMessage :=
  match l with
  | [] => []
  | ToHost m :: rest => m :: lifecycle rest
  | ToPort _ _ :: rest => lifecycle rest
  end.

(** What [once(channel.port1, "message")] yields: the first message posted
    on the other port of the channel. *)
Fixpoint first_response (channel : MessagePort) (l : list Post)
  : option (Result TRecv) :=
  match l with
  | [] => None
  | ToPort response r :: rest =>
      if Nat.eqb response channel then Some r else first_response channel rest
  | ToHost _ :: rest => first_response channel rest
  end.

Inductive SystemEvent : Type :=
| UserCall (value : TSend)
| UserExit (reason : ExitReason)
| Deliver
| Notify
| Respond (channel : MessagePort)
| Local (e : Event).

Definition start (d : TData) : System := mkSystem (acquire d) boot 0 0.

Definition sys_step (e : SystemEvent) (s : System) : option System :=
  match e with
  | UserCall value =>
      match hstep (CallSend value) (host s) with
      | Some h => Some (mkSystem h (worker s) (dispatched s) (observed s))
      | None => None
      end
  | UserExit reason =>
      match hstep (Exit reason) (host s) with
      | Some h => Some (mkSystem h (worker s) (dispatched s) (observed s))
      | None => None
      end
  | Deliver =>
      match nth_error (posted (host s)) (dispatched s) with
      | Some control =>
          match step (Control control) (worker s) with
          | Some w => Some (mkSystem (host s) w (S (dispatched s)) (observed s))
          | None => None
          end
      | None => None
      end
  | Notify =>
      match nth_error (lifecycle (posts (worker s))) (observed s) with
      | Some m =>
          match hstep (Message m) (host s) with
          | Some h => Some (mkSystem h (worker s) (dispatched s)
                              (S (observed s)))
          | None => None
          end
      | None => None
      end
  | Respond channel =>
      match first_response channel (posts (worker s)) with
      | Some r =>
          match hstep (Reply channel r) (host s) with
          | Some h => Some (mkSystem h (worker s) (dispatched s) (observed s))
          | None => None
          end
      | None => None
      end
  | Local (Control _) => None
  | Local e =>
      match step e (worker s) with
      | Some w => Some (mkSystem (host s) w (dispatched s) (observed s))
      | None => None
      end
  end.

Fixpoint sys_run (events : list SystemEvent) (s : System) : option System :=
  match events with
  | [] => Some s
  | e :: rest =>
      match sys_step e s with
      | Some s' => sys_run rest s'
      | None => None
      end
  end.

(** ** Measures used in the statements *)

(** How many responses were posted on a port. *)
Fixpoint count_port (p : MessagePort) (l : list Post) : nat :=
  match l with
  | [] => 0
  | ToPort response _ :: rest =>
      (if Nat.eqb response p then 1 else 0) + count_port p rest
  | ToHost _ :: rest => count_port p rest
  end.

(** How many messages of a given [type] were posted to the host. *)
Definition count_type (t : string) (l : list Post) : nat :=
  List.length (filter (fun m => (type m =? t)%string) (lifecycle l)).

(** The results the events of a run try to resolve the outcome with, in
    order: a [close] control message and the end of a body task. *)
Fixpoint attempts (events : list Event) : list (Result TReturn) :=
  match events with
  | [] => []
  | Control Close :: rest => Err terminated :: attempts rest
  | BodyEnd _ c :: rest => try_result c :: attempts rest
  | _ :: rest => attempts rest
  end.

(** The control messages among the events of a run of the worker. *)
Fixpoint controls (events : list Event) : list WorkerControl :=
  match events with
  | [] => []
  | Control c :: rest => c :: controls rest
  | _ :: rest => controls rest
  end.

(** The handlers that the body handed to [messages.forEach] in a run of
    the worker, and in a run of the system. *)
Fixpoint subscribed (events : list Event)
  : list (TSend -> Operation TRecv) :=
  match events with
  | [] => []
  | ForEach _ fn :: rest => fn :: subscribed rest
  | _ :: rest => subscribed rest
  end.

Fixpoint sys_subscribed (events : list SystemEvent)
  : list (TSend -> Operation TRecv) :=
  match events with
  | [] => []
  | Local (ForEach _ fn) :: rest => fn :: sys_subscribed rest
  | _ :: rest => sys_subscribed rest
  end.

(** The data of the [init] messages among a list of control messages. *)
Fixpoint inits (l : list WorkerControl) : list TData :=
  match l with
  | [] => []
  | Init d :: rest => d :: inits rest
  | _ :: rest => inits rest
  end.

(** How many payloads of a list travel with port [p]. *)
Definition port_count (p : MessagePort) (items : list (TSend * MessagePort))
  : nat :=
  List.length (filter (fun item => Nat.eqb (snd item) p) items).

(** How many responses on port [p] the worker has posted or may still post:
    the responses posted, the handler tasks running, and the payloads
    queued in subscriptions. *)
Definition pending_on (p : MessagePort) (w : Worker) : nat :=
  count_port p (posts w)
  + List.length (filter (fun t => Nat.eqb (task_response t) p) (handlers w))
  + list_sum (map (fun sub => port_count p (sub_queue sub)) (sent w)).

Definition is_init (c : WorkerControl) : bool :=
  match c with
  | Init _ => true
  | _ => false
  end.

(** The data that the body was started with, once per start, in order. *)
Definition launched (w : Worker) : list TData := map body_data (bodies w).

(** The requests among a list of control messages. *)
Fixpoint requests (l : list WorkerControl) : list (TSend * MessagePort) :=
  match l with
  | [] => []
  | Send value response :: rest => (value, response) :: requests rest
  | _ :: rest => requests rest
  end.

Definition is_response (p : Post) : Prop :=
  match p with
  | ToPort _ _ => True
  | ToHost _ => False
  end.

(** Every payload, handler and response of the worker comes from one of
    the requests [reqs] and one of the handlers [fns]. *)
Definition traced (reqs : list (TSend * MessagePort))
    (fns : list (TSend -> Operation TRecv)) (w : Worker) : Prop :=
  (forall sub, In sub (sent w) ->
     In (sub_fn sub) fns /\ forall item, In item (sub_queue sub) -> In item reqs)
  /\ (forall task, In task (handlers w) ->
        exists value fn, In (value, task_response task) reqs /\ In fn fns
                         /\ task_op task = fn value)
  /\ (forall p r, In (ToPort p r) (posts w) ->
        exists value fn c, In (value, p) reqs /\ In fn fns
                           /\ fn value = Some c /\ r = try_result c).

(** What a worker started by [boot] has posted: [open], then responses,
    then the terminal [close] with the resolved outcome once finalized. *)
Definition posts_shape (w : Worker) : Prop :=
  exists responses,
    Forall is_response responses
    /\ ((finalized w = false /\ posts w = ToHost open_message :: responses)
        \/ (finalized w = true
            /\ exists r, outcome w = Some (Returned r)
                         /\ posts w = ToHost open_message :: responses
                                        ++ [ToHost (close_message r)])).

(** What holds of every state of the host started by [acquire d]: the
    requests it posted are its calls, numbered by their channels; [onclose]
    stays attached until the teardown has ended; nothing is posted before
    the handshake, and [init] is posted first and once. *)
Definition host_inv (d : TData) (h : Host) : Prop :=
  data h = d
  /\ requests (posted h)
     = combine (map call_value (calls h)) (seq 0 (List.length (calls h)))
  /\ onclose_attached h = match scope h with
                          | Released _ _ => false
                          | _ => true
                          end
  /\ match scope h with
     | Acquiring | Dropped _ | Rejected _ => posted h = [] /\ calls h = []
     | _ => exists rest, posted h = Init d :: rest
                         /\ forallb (fun c => negb (is_init c)) rest = true
     end.

(** The result captured by [settled] for a settled outcome. *)
Definition captured_of (c : Completion TReturn) : Result unit :=
  match c with
  | Returned _ => Ok tt
  | Thrown error => Err error
  end.

Definition is_close (c : WorkerControl) : bool :=
  match c with
  | Close => true
  | _ => false
  end.

Definition is_send (c : WorkerControl) : bool :=
  match c with
  | Send _ _ => true
  | _ => false
  end.

(** What holds of the host from [Exit reason] on, [log] being what it had
    posted when [close] was posted: the teardown posts nothing more (only a
    later call of [send] does), and the generator waits in [settled] with
    the listener attached until the outcome settles, then removes the
    listener and ends. *)
Definition tearing_down (reason : ExitReason) (log : list WorkerControl)
    (h : Host) : Prop :=
  (exists more, posted h = log ++ more /\ forallb is_send more = true)
  /\ match h_outcome h with
     | None => scope h = Releasing reason /\ onclose_attached h = true
     | Some c => scope h = Released reason (captured_of c)
                 /\ onclose_attached h = false
     end.

(** Every call that was resumed was resumed by a response that the worker
    posted on the port of the call's channel. *)
Definition answered (s : System) : Prop :=
  forall p call c,
    nth_error (calls (host s)) p = Some call ->
    call_state call = Resumed c ->
    exists r, In (ToPort p r) (posts (worker s)) /\ c = send_result r.

(** The request posted at position [k] of the host's log was dispatched
    while nothing was subscribed: no payload, handler or response of the
    worker refers to its port, and its call is still suspended, or was
    halted with the scope. *)
Definition unanswered (d : TData) (k : nat) (value : TSend)
    (response : MessagePort) (s : System) : Prop :=
  host_inv d (host s)
  /\ nth_error (posted (host s)) k = Some (Send value response)
  /\ k < dispatched s
  /\ (exists reqs fns,
        traced reqs fns (worker s) /\ ~ In response (map snd reqs))
  /\ exists call,
       nth_error (calls (host s)) response = Some call
       /\ call_value call = value
       /\ (call_state call = Pending
           \/ (call_state call = Halted /\ scope (host s) <> Provided)).

(** ** Measures used for the host and for the connected system *)

(** [outcome.resolve(result.value)] or [outcome.reject(result.error)]
    (lines 147-151): the completion a [Result] settles a resolver pair
    with. *)
Definition completion_of {T : Type} (r : Result T) : Completion T :=
  match r with
  | Ok value => Returned value
  | Err error => Thrown error
  end.

(** The first message of type ["close"] that carries a result, among the
    message events of a run of the host, as the completion it stands for. *)
Fixpoint first_close (events : list HostEvent)
  : option (Completion TReturn) :=
  match events with
  | [] => None
  | Message m :: rest =>
      if (type m =? "close")%string then
        match result m with
        | Some r => Some (completion_of r)
        | None => first_close rest
        end
      else first_close rest
  | _ :: rest => first_close rest
  end.

(** The [send] control messages of a list of calls: one per call, in call
    order, with the value of the call and the number of its channel. *)
Definition sends_of (l : list SendCall) : list WorkerControl :=
  map (fun item => Send (fst item) (snd item))
    (combine (map call_value l) (seq 0 (List.length l))).

(** Whether the generator of the resource has reached line 176 and made
    the handle. *)
Definition handle_made (h : Host) : bool :=
  match scope h with
  | Acquiring | Dropped _ | Rejected _ => false
  | _ => true
  end.

(** Whether the scope of a provided resource has ended, so that [finally]
    has started. *)
Definition exited (h : Host) : bool :=
  match scope h with
  | Releasing _ | Aborted _ | Released _ _ => true
  | _ => false
  end.

(** What is left of a log of control messages without its [close]. *)
Definition without_close (l : list WorkerControl) : list WorkerControl :=
  filter (fun c => negb (is_close c)) l.

(** What ties the log of a host to its state: [init] and then one [send]
    per call, in call order, once the handle is made; and one [close] once
    the scope of the provided resource has ended. *)
Definition control_log (d : TData) (h : Host) : Prop :=
  without_close (posted h)
  = (if handle_made h then Init d :: sends_of (calls h) else [])
  /\ List.length (filter is_close (posted h)) = (if exited h then 1 else 0).

(** How far the host has followed the worker: before ["open"] it is
    acquiring; after ["open"] it is provided or tearing down with its
    outcome pending; after the terminal ["close"] the worker has finalized
    and the host's outcome is the worker's.  A host whose scope ended while
    it was acquiring stays as it was left, but for its outcome. *)
Definition in_sync (s : System) : Prop :=
  match observed s with
  | 0 => h_outcome (host s) = None
         /\ (scope (host s) = Acquiring
             \/ exists reason, scope (host s) = Dropped reason)
  | 1 => h_outcome (host s) = None
         /\ (scope (host s) = Provided
             \/ (exists reason, scope (host s) = Releasing reason)
             \/ exists reason, scope (host s) = Dropped reason)
  | S (S n) =>
      n = 0 /\ finalized (worker s) = true
      /\ exists r,
           outcome (worker s) = Some (Returned r)
           /\ h_outcome (host s) = Some (completion_of r)
           /\ (scope (host s) = Provided
               \/ (exists reason,
                     scope (host s)
                     = Released reason (captured_of (completion_of r)))
               \/ exists reason, scope (host s) = Dropped reason)
  end.

(** The events of a run of the worker in which only requests are handled:
    the dispatch of a [send], an iteration of a [forEach], and the
    completion of a handler. *)
Definition request_event (e : Event) : bool :=
  match e with
  | Control (Send _ _) | Iterate _ | Answer _ => true
  | _ => false
  end.

(** The dispatch of a list of requests, in order. *)
Definition send_events (reqs : list (TSend * MessagePort)) : list Event :=
  map (fun r => Control (Send (fst r) (snd r))) reqs.

(** The handler task that the loop of a subscription spawns for a request
    (lines 81-88). *)
Definition handler_of (sub : Subscription) (r : TSend * MessagePort)
  : Handler :=
  mkHandler (sub_owner sub) (snd r) (sub_fn sub (fst r)).

(** The dispatch loop run over a list of control messages. *)
Definition dispatch_all (l : list WorkerControl) (w : Worker) : Worker :=
  fold_left (fun w c => dispatch c w) l w.

(** The steps of the connected system that neither the body nor a handler
    nor the user of the handle takes part in. *)
Definition runtime_step (e : SystemEvent) : Prop :=
  e = Deliver \/ e = Local Finish \/ e = Notify.

(** Every subscription and every handler task runs in a body task that is
    still running. *)
Definition owned (w : Worker) : Prop :=
  (forall sub, In sub (sent w) ->
     exists body, nth_error (bodies w) (sub_owner sub) = Some body
                  /\ body_running body = true)
  /\ (forall task, In task (handlers w) ->
        exists body, nth_error (bodies w) (task_owner task) = Some body
                     /\ body_running body = true).

(** * Properties *)

(** ** Lists *)

Lemma lifecycle_app (l1 l2 : list Post) :
  lifecycle (l1 ++ l2) = lifecycle l1 ++ lifecycle l2.
Proof.
  induction l1 as [|[m|p r] l1 IH]; simpl; [reflexivity| |assumption].
  now rewrite IH.
Qed.

Lemma lifecycle_responses (l : list Post) :
  Forall is_response l -> lifecycle l = [].
Proof.
  induction 1 as [|[m|p r] l Hx _ IH]; simpl; auto. destruct Hx.
Qed.

Lemma count_port_app (p : MessagePort) (l1 l2 : list Post) :
  count_port p (l1 ++ l2) = count_port p l1 + count_port p l2.
Proof.
  induction l1 as [|[m|q r] l1 IH]; simpl; auto. rewrite IH. lia.
Qed.

Lemma nth_error_drop_other {A : Type} (l : list A) (i k : nat) (x : A) :
  k <> i -> nth_error l k = Some x -> In x (drop i l).
Proof.
  revert i k. induction l as [|a l IH]; intros i k Hne Hk.
  - destruct k; discriminate.
  - destruct i, k; simpl in *.
    + congruence.
    + eapply nth_error_In; eauto.
    + inversion Hk. now left.
    + right. apply (IH i k); [lia|assumption].
Qed.

Lemma In_drop {A : Type} (l : list A) (i : nat) (x : A) :
  In x (drop i l) -> In x l.
Proof.
  revert i. induction l as [|a l IH]; intros [|i] H; simpl in *; auto.
  destruct H; eauto.
Qed.

Lemma In_update {A : Type} (l : list A) (i : nat) (x y : A) :
  In y (update i x l) -> y = x \/ In y l.
Proof.
  revert i. induction l as [|a l IH]; intros [|i] H; simpl in *; auto.
  - destruct H; auto.
  - destruct H as [H|H]; auto. apply IH in H. tauto.
Qed.

Lemma length_update {A : Type} (l : list A) (i : nat) (x : A) :
  List.length (update i x l) = List.length l.
Proof.
  revert i. induction l as [|a l IH]; intros [|i]; simpl; auto.
Qed.

Lemma nth_error_update {A : Type} (l : list A) (i k : nat) (x : A) :
  nth_error (update i x l) k =
  if Nat.eqb k i then option_map (fun _ => x) (nth_error l k)
  else nth_error l k.
Proof.
  revert i k. induction l as [|a l IH]; intros i k.
  - destruct i, k; simpl; try reflexivity. now destruct (Nat.eqb k i).
  - destruct i, k; simpl; auto.
Qed.

(** ** The worker, step by step *)

Ltac break_match H :=
  repeat match type of H with
         | context [match ?x with _ => _ end] =>
             destruct x eqn:?; try discriminate H
         end.

Ltac invert_step H :=
  unfold step in H; break_match H; inversion H; subst; clear H.

Lemma step_running (e : Event) (w w' : Worker) :
  step e w = Some w' -> finalized w = false.
Proof.
  unfold step. destruct (finalized w); [discriminate|reflexivity].
Qed.

Lemma step_finalized (e : Event) (w : Worker) :
  finalized w = true -> step e w = None.
Proof.
  intros H. unfold step. now rewrite H.
Qed.

Lemma run_finalized (events : list Event) (w w' : Worker) :
  finalized w = true -> run events w = Some w' -> events = [] /\ w' = w.
Proof.
  intros Hf. destruct events as [|e rest]; simpl.
  - intros H. inversion H. auto.
  - now rewrite (step_finalized e w Hf).
Qed.

Lemma run_invariant (P : Worker -> Prop) :
  (forall e w w', P w -> step e w = Some w' -> P w') ->
  forall events w w', P w -> run events w = Some w' -> P w'.
Proof.
  intros Hstep. induction events as [|e rest IH]; simpl; intros w w' Hw Hrun.
  - inversion Hrun. now subst.
  - destruct (step e w) as [w1|] eqn:He; [|discriminate]. eauto.
Qed.

Lemma run_app (l1 l2 : list Event) (w : Worker) :
  run (l1 ++ l2) w =
  match run l1 w with
  | Some w' => run l2 w'
  | None => None
  end.
Proof.
  revert w. induction l1 as [|e l1 IH]; simpl; intros w; [reflexivity|].
  destruct (step e w); auto.
Qed.

(** The outcome after a run is the outcome before it when that was already
    resolved, and otherwise the first attempt of the run. *)
Lemma run_outcome (events : list Event) :
  forall w w', run events w = Some w' ->
  outcome w' = match outcome w with
               | Some c => Some c
               | None => option_map Returned (hd_error (attempts events))
               end.
Proof.
  induction events as [|e rest IH]; simpl; intros w w' Hrun.
  - inversion Hrun. subst. destruct (outcome w'); reflexivity.
  - destruct (step e w) as [w1|] eqn:He; [|discriminate].
    rewrite (IH _ _ Hrun). clear IH Hrun.
    unfold step in He. destruct (finalized w); [discriminate|].
    destruct e as [[d|v p|]|b fn|s|h|b c|]; simpl in He;
      break_match He; inversion He; subst; clear He; simpl;
      try reflexivity;
      try (destruct (outcome w); reflexivity).
Qed.

Lemma posts_shape_step (e : Event) (w w' : Worker) :
  posts_shape w -> step e w = Some w' -> posts_shape w'.
Proof.
  intros (responses & Hall & Hshape) He.
  pose proof (step_running _ _ _ He) as Hrun.
  destruct Hshape as [[_ Hp]|[Hf _]]; [|congruence].
  unfold step in He. rewrite Hrun in He.
  destruct e as [c|b fn|s|h|b c|]; break_match He; inversion He; subst;
    clear He; unfold posts_shape; simpl.
  - exists responses. split; [assumption|]. left.
    destruct c; simpl; auto.
  - exists responses. auto.
  - exists responses. auto.
  - exists (responses ++ [ToPort (task_response h0) (try_result c)]).
    split.
    + apply Forall_app. split; [assumption|]. constructor; simpl; auto.
    + left. split; [reflexivity|]. rewrite Hp. reflexivity.
  - exists responses. auto.
  - exists responses. split; [assumption|]. right. split; [reflexivity|].
    eexists. split; [reflexivity|]. rewrite Hp. reflexivity.
Qed.

Lemma posts_shape_run (events : list Event) (w : Worker) :
  run events boot = Some w -> posts_shape w.
Proof.
  apply run_invariant with (P := posts_shape).
  - apply posts_shape_step.
  - exists []. split; [constructor|]. left. auto.
Qed.

Lemma lifecycle_shape (w : Worker) :
  posts_shape w ->
  lifecycle (posts w) =
  open_message :: match outcome w, finalized w with
                  | Some (Returned r), true => [close_message r]
                  | _, _ => []
                  end.
Proof.
  intros (responses & Hall & [[Hf Hp]|[Hf (r & Ho & Hp)]]);
    rewrite Hp, Hf; simpl.
  - rewrite (lifecycle_responses _ Hall). now destruct (outcome w) as [[]|].
  - rewrite lifecycle_app, (lifecycle_responses _ Hall), Ho. reflexivity.
Qed.

Lemma finish_enabled (w : Worker) (r : Result TReturn) :
  finalized w = false -> outcome w = Some (Returned r) ->
  exists w', step Finish w = Some w'
             /\ finalized w' = true
             /\ outcome w' = Some (Returned r)
             /\ posts w' = posts w ++ [ToHost (close_message r)].
Proof.
  intros Hf Ho. unfold step. rewrite Hf, Ho. eexists. split; [reflexivity|].
  simpl. auto.
Qed.

(** Once finalized, a run has ended with [Finish]: its last post is the
    terminal [close] carrying the resolved outcome. *)
Lemma run_finalizes (events : list Event) :
  forall w w', run events w = Some w' ->
  finalized w = false -> finalized w' = true ->
  exists r, outcome w' = Some (Returned r)
            /\ exists before, posts w' = before ++ [ToHost (close_message r)].
Proof.
  induction events as [|e rest IH]; simpl; intros w w' Hrun Hw Hw'.
  - inversion Hrun. congruence.
  - destruct (step e w) as [w1|] eqn:He; [|discriminate].
    destruct (finalized w1) eqn:Hw1.
    + destruct (run_finalized _ _ _ Hw1 Hrun) as [_ ->].
      unfold step in He. rewrite Hw in He.
      destruct e as [[d|v p|]|b fn|s|h|b c|]; break_match He; inversion He;
        subst; clear He; simpl in Hw1; try congruence.
      simpl. eexists. split; [reflexivity|]. eexists. reflexivity.
    + eapply IH; eauto.
Qed.

(** C3: in every run of the worker the outcome is the first resolution
    attempt of the run (the end of a body task or a [close] control
    message), any further attempt leaves it as it is, the terminal [close]
    message is posted exactly once when the worker finalizes and not before,
    it carries that outcome, and a finalized worker takes no further step. *)
Theorem single_terminal_outcome (events : list Event) (w : Worker) :
  run events boot = Some w ->
  outcome w = option_map Returned (hd_error (attempts events))
  /\ (forall r, outcome w <> None -> resolve r (outcome w) = outcome w)
  /\ count_type "close" (posts w) = (if finalized w then 1 else 0)
  /\ (finalized w = true ->
      (exists r, outcome w = Some (Returned r)
                 /\ lifecycle (posts w) = [open_message; close_message r])
      /\ forall e, step e w = None).
Proof.
  intros Hrun.
  pose proof (posts_shape_run _ _ Hrun) as Hshape.
  pose proof (lifecycle_shape _ Hshape) as Hl.
  split; [now rewrite (run_outcome _ _ _ Hrun)|].
  split; [intros r Hne; destruct (outcome w); [reflexivity|congruence]|].
  unfold count_type. rewrite Hl.
  destruct Hshape as (responses & _ & [[Hf _]|[Hf (r & Ho & _)]]);
    rewrite Hf; try rewrite Ho.
  - split; [destruct (outcome w) as [[]|]; reflexivity|discriminate].
  - split; [reflexivity|]. intros _. split.
    + exists r. auto.
    + intros e. now apply step_finalized.
Qed.

(** C4: whatever the worker has posted begins with the one [open] message,
    continues with responses on response ports only, and ends, once the
    worker has finalized, with the one terminal [close] message, after which
    no step of the worker (hence no post) is possible; a worker whose
    outcome is resolved can always finalize and post that message. *)
Theorem lifecycle_order (events : list Event) (w : Worker) :
  run events boot = Some w ->
  exists responses tail,
    posts w = ToHost open_message :: responses ++ tail
    /\ Forall is_response responses
    /\ count_type "open" (posts w) = 1
    /\ count_type "close" (posts w) = List.length tail
    /\ (if finalized w
        then exists r, tail = [ToHost (close_message r)]
                       /\ outcome w = Some (Returned r)
        else tail = [])
    /\ (finalized w = true -> forall e, step e w = None)
    /\ (forall r, finalized w = false -> outcome w = Some (Returned r) ->
        exists w', step Finish w = Some w'
                   /\ posts w' = posts w ++ [ToHost (close_message r)]).
Proof.
  intros Hrun.
  pose proof (posts_shape_run _ _ Hrun) as Hshape.
  pose proof (lifecycle_shape _ Hshape) as Hl.
  assert (Hlast : (finalized w = true -> forall e, step e w = None)
                  /\ (forall r, finalized w = false ->
                      outcome w = Some (Returned r) ->
                      exists w', step Finish w = Some w'
                        /\ posts w' = posts w ++ [ToHost (close_message r)])).
  { split.
    - intros Hf e. now apply step_finalized.
    - intros r Hf Ho. destruct (finish_enabled w r Hf Ho) as (w' & ? & _ & _ & ?).
      eauto. }
  destruct Hlast as [Hstop Hgo].
  destruct Hshape as (responses & Hall & [[Hf Hp]|[Hf (r & Ho & Hp)]]).
  - exists responses, []. rewrite app_nil_r. unfold count_type.
    rewrite Hl, Hf.
    split; [assumption|]. split; [assumption|].
    split; [destruct (outcome w) as [[]|]; reflexivity|].
    split; [destruct (outcome w) as [[]|]; reflexivity|].
    split; [reflexivity|]. rewrite <- Hf. auto.
  - exists responses, [ToHost (close_message r)]. unfold count_type.
    rewrite Hl, Hf, Ho.
    split; [assumption|]. split; [assumption|].
    split; [reflexivity|]. split; [reflexivity|].
    split; [exists r; auto|]. rewrite <- Hf, <- Ho. auto.
Qed.

(** C5: a worker whose outcome is still pending (no body task has ended)
    and that takes a [close] control message resolves its outcome to the
    error "worker terminated"; it can finalize at once, posting the terminal
    [close] with that error; whatever happens later, the outcome stays that
    error and a finalized worker has posted it last.  When the host's scope
    ends while the body runs, this error is what the worker posts and what
    the host's outcome is rejected with, and the host's teardown ends with
    the error captured. *)
Theorem close_before_completion (w : Worker) :
  finalized w = false -> outcome w = None ->
  (exists w',
     step (Control Close) w = Some w'
     /\ outcome w' = Some (Returned (Err terminated))
     /\ (exists w'', step Finish w' = Some w''
                     /\ posts w'' = posts w
                                      ++ [ToHost (close_message (Err terminated))])
     /\ forall events w'', run events w' = Some w'' ->
          outcome w'' = Some (Returned (Err terminated))
          /\ (finalized w'' = true ->
              exists before,
                posts w'' = before ++ [ToHost (close_message (Err terminated))]))
  /\ forall (d : TData) (reason : ExitReason),
     exists s,
       sys_run [Notify; Deliver; UserExit reason; Deliver; Local Finish; Notify]
         (start d) = Some s
       /\ launched (worker s) = [d]
       /\ outcome (worker s) = Some (Returned (Err terminated))
       /\ h_outcome (host s) = Some (Thrown terminated)
       /\ scope (host s) = Released reason (Err terminated).
Proof.
  intros Hf Ho. split.
  - eexists. split; [unfold step; rewrite Hf; reflexivity|].
    simpl. rewrite Ho. simpl. split; [reflexivity|]. split.
    + unfold step. simpl. rewrite Hf. eexists. split; reflexivity.
    + intros events w'' Hrun.
      pose proof (run_outcome _ _ _ Hrun) as Hout. simpl in Hout.
      split; [assumption|].
      intros Hf''.
      destruct (run_finalizes _ _ _ Hrun Hf Hf'') as (r & Hr & before & Hp).
      exists before. rewrite Hp. congruence.
  - intros d reason. eexists. split; [reflexivity|]. simpl. auto.
Qed.

Lemma drop_firstn_skipn {A : Type} (l : list A) (i : nat) :
  drop i l = firstn i l ++ skipn (S i) l.
Proof.
  revert i. induction l as [|a l IH]; intros [|i]; simpl; try reflexivity.
  f_equal. rewrite IH. reflexivity.
Qed.

Lemma drop_last {A : Type} (l : list A) (x : A) :
  drop (List.length l) (l ++ [x]) = l.
Proof.
  induction l as [|a l IH]; simpl; [reflexivity|]. now rewrite IH.
Qed.

Lemma nth_error_last {A : Type} (l : list A) (x : A) :
  nth_error (l ++ [x]) (List.length l) = Some x.
Proof.
  induction l as [|a l IH]; simpl; auto.
Qed.

Lemma request_event_step (e : Event) (w w' : Worker) :
  request_event e = true -> step e w = Some w' ->
  outcome w' = outcome w /\ bodies w' = bodies w.
Proof.
  intros He Hstep. unfold step in Hstep.
  destruct (finalized w); [discriminate|].
  destruct e as [[d|v p|]|b fn|s|h|b c|]; try discriminate;
    simpl in Hstep; break_match Hstep; inversion Hstep; subst; simpl; auto.
Qed.

Lemma request_events_run (events : list Event) :
  forall w w',
    forallb request_event events = true -> run events w = Some w' ->
    outcome w' = outcome w /\ bodies w' = bodies w.
Proof.
  induction events as [|e rest IH]; simpl; intros w w' Hall Hrun.
  - inversion Hrun. auto.
  - apply andb_true_iff in Hall. destruct Hall as [He Hrest].
    destruct (step e w) as [w1|] eqn:Hstep; [|discriminate].
    destruct (request_event_step _ _ _ He Hstep) as [Ho Hb].
    destruct (IH _ _ Hrest Hrun) as [Ho' Hb']. split; congruence.
Qed.

(** C2, as the code has it: a request dispatched to a subscribed [forEach] is
    handed to a new task that runs the handler on the request's value;
    when the handler completes, the task posts one [Result] on the
    request's response port, [Ok] of the returned value or [Err] of the
    thrown error, and ends, so that it posts no second one.  The
    completion of any handler leaves the worker's outcome, its body tasks
    and its subscriptions untouched, removes that one task and keeps every
    other, each of which still posts its own result when its handler
    completes.  However many requests are handled, and however they end,
    the outcome and the body tasks of the worker stay as they were.  A
    handler that has not completed when the worker finalizes is halted and
    posts nothing. *)
Theorem request_failure_is_local (w : Worker) :
  finalized w = false ->
  (forall s sub value response c,
     nth_error (sent w) s = Some sub ->
     sub_queue sub = [] ->
     sub_fn sub value = Some c ->
     exists w',
       run [Control (Send value response); Iterate s;
            Answer (List.length (handlers w))] w = Some w'
       /\ posts w' = posts w
                       ++ [ToPort response
                             (match c with
                              | Returned x => Ok x
                              | Thrown error => Err error
                              end)]
       /\ handlers w' = handlers w
       /\ nth_error (sent w') s = Some sub
       /\ outcome w' = outcome w
       /\ bodies w' = bodies w
       /\ finalized w' = false)
  /\ (forall h task c,
        nth_error (handlers w) h = Some task ->
        task_op task = Some c ->
        exists w',
          step (Answer h) w = Some w'
          /\ posts w' = posts w
                          ++ [ToPort (task_response task)
                                (match c with
                                 | Returned value => Ok value
                                 | Thrown error => Err error
                                 end)]
          /\ handlers w' = firstn h (handlers w) ++ skipn (S h) (handlers w)
          /\ outcome w' = outcome w
          /\ bodies w' = bodies w
          /\ sent w' = sent w
          /\ finalized w' = false
          /\ forall k other c',
               k <> h -> nth_error (handlers w) k = Some other ->
               task_op other = Some c' ->
               In other (handlers w')
               /\ exists k' w'',
                    step (Answer k') w' = Some w''
                    /\ posts w'' = posts w'
                                     ++ [ToPort (task_response other)
                                           (try_result c')])
  /\ (forall events w',
        run events w = Some w' ->
        forallb request_event events = true ->
        outcome w' = outcome w /\ bodies w' = bodies w)
  /\ (forall r,
        outcome w = Some (Returned r) ->
        exists w',
          step Finish w = Some w'
          /\ handlers w' = []
          /\ posts w' = posts w ++ [ToHost (close_message r)]
          /\ forall e, step e w' = None).
Proof.
  intros Hf. split; [|split; [|split]].
  - intros s sub value response c Hs Hq Hc.
    assert (Hs1 : nth_error (map (enqueue (value, response)) (sent w)) s
                  = Some (enqueue (value, response) sub)).
    { now rewrite nth_error_map, Hs. }
    set (w1 := dispatch (Send value response) w).
    set (w2 := mkWorker (outcome w) (bodies w)
                 (update s (mkSubscription (sub_owner sub) (sub_fn sub) [])
                    (sent w1))
                 (handlers w ++ [mkHandler (sub_owner sub) response
                                   (sub_fn sub value)])
                 (finalized w) (posts w)).
    assert (H1 : step (Control (Send value response)) w = Some w1).
    { unfold step. now rewrite Hf. }
    assert (H2 : step (Iterate s) w1 = Some w2).
    { unfold step. unfold w1 at 1 2. cbn [dispatch finalized sent].
      rewrite Hf, Hs1. cbn [enqueue sub_queue]. rewrite Hq. reflexivity. }
    assert (H3 : step (Answer (List.length (handlers w))) w2
                 = Some (mkWorker (outcome w) (bodies w) (sent w2)
                           (handlers w) (finalized w)
                           (posts w ++ [ToPort response (try_result c)]))).
    { unfold step, w2. cbn [finalized handlers outcome bodies posts sent].
      rewrite Hf, nth_error_last. cbn [task_op task_response].
      now rewrite Hc, drop_last. }
    eexists. split.
    { cbn [run]. rewrite H1, H2, H3. reflexivity. }
    cbn [posts handlers sent outcome bodies finalized].
    split; [now destruct c|]. split; [reflexivity|].
    split; [|auto].
    unfold w2. cbn [sent]. unfold w1. cbn [dispatch sent].
    rewrite nth_error_update, Nat.eqb_refl, Hs1. simpl.
    destruct sub as [owner fn queue]. simpl in *. now subst.
  - intros h task c Hh Hop. unfold step. rewrite Hf, Hh, Hop.
    eexists. split; [reflexivity|]. simpl.
    split; [now destruct c|]. split; [apply drop_firstn_skipn|].
    repeat split; try reflexivity; try assumption.
    + apply (nth_error_drop_other _ h k); assumption.
    + assert (Hin : In other (drop h (handlers w)))
        by (apply (nth_error_drop_other _ h k); assumption).
      apply In_nth_error in Hin. destruct Hin as (k' & Hk').
      exists k'. rewrite Hk'.
      match goal with Hop' : task_op other = Some _ |- _ => rewrite Hop' end.
      eexists. split; reflexivity.
  - intros events w' Hrun Hall. eapply request_events_run; eauto.
  - intros r Ho. unfold step at 1. rewrite Hf, Ho.
    eexists. split; [reflexivity|]. simpl.
    split; [reflexivity|]. split; [reflexivity|].
    intros e. now apply step_finalized.
Qed.

(** ** The host, step by step *)

Lemma hrun_invariant (P : Host -> Prop) :
  (forall e h h', P h -> hstep e h = Some h' -> P h') ->
  forall events h h', P h -> hrun events h = Some h' -> P h'.
Proof.
  intros Hstep. induction events as [|e rest IH]; simpl; intros h h' Hh Hrun.
  - inversion Hrun. now subst.
  - destruct (hstep e h) as [h1|] eqn:He; [|discriminate]. eauto.
Qed.

Lemma requests_app (l1 l2 : list WorkerControl) :
  requests (l1 ++ l2) = requests l1 ++ requests l2.
Proof.
  induction l1 as [|[d|v p|] l1 IH]; simpl; auto. now rewrite IH.
Qed.

Lemma forallb_not_init_app (l1 l2 : list WorkerControl) :
  forallb (fun c => negb (is_init c)) l1 = true ->
  forallb (fun c => negb (is_init c)) l2 = true ->
  forallb (fun c => negb (is_init c)) (l1 ++ l2) = true.
Proof.
  intros H1 H2. rewrite forallb_app, H1, H2. reflexivity.
Qed.

Lemma map_call_value_update (l : list SendCall) (i : nat) (call : SendCall)
    (st : CallState) :
  nth_error l i = Some call ->
  map call_value (update i (mkCall (call_value call) st) l) = map call_value l.
Proof.
  revert i. induction l as [|a l IH]; intros [|i] H; simpl in *;
    try discriminate.
  - inversion H. reflexivity.
  - now rewrite IH.
Qed.

Lemma map_call_value_halt (l : list SendCall) :
  map call_value (map halt l) = map call_value l.
Proof.
  induction l as [|a l IH]; simpl; [reflexivity|]. rewrite IH.
  unfold halt. now destruct (call_state a).
Qed.

Lemma combine_seq_snoc {A : Type} (l : list A) (x : A) :
  combine (l ++ [x]) (seq 0 (List.length (l ++ [x])))
  = combine l (seq 0 (List.length l)) ++ [(x, List.length l)].
Proof.
  rewrite length_app. simpl. rewrite seq_app. simpl.
  generalize (seq 0 (List.length l)) (length_seq (List.length l) 0).
  generalize (List.length l) at 2 3.
  induction l as [|a l IH]; intros n [|k ks] Hlen; simpl in *;
    try discriminate; try reflexivity.
  f_equal. apply IH. now inversion Hlen.
Qed.

Lemma host_inv_step (d : TData) (e : HostEvent) (h h' : Host) :
  host_inv d h -> hstep e h = Some h' -> host_inv d h'.
Proof.
  intros (Hd & Hreq & Hatt & Hsc) He. unfold host_inv.
  destruct e as [m|value|channel r|reason]; simpl in He.
  - destruct (scope h) eqn:Hs;
      try (inversion He; subst; clear He; simpl; rewrite ?Hs; auto; fail).
    + destruct Hsc as [Hp Hc].
      destruct (type m =? "open")%string; inversion He; subst; clear He;
        simpl; rewrite Hp, Hc; simpl; repeat split; auto.
      exists []. auto.
    + inversion He; subst; clear He. unfold finally_resume. simpl.
      destruct (settled (T:=TReturn) _) as [[captured|error]|]; simpl; auto.
  - destruct (scope h) eqn:Hs; try discriminate;
      inversion He; subst; clear He; simpl; rewrite ?Hs;
      (repeat split; auto;
       [ rewrite requests_app, Hreq, map_app; simpl;
         now rewrite <- (length_map call_value), <- combine_seq_snoc,
           !length_app, !length_map
       | destruct Hsc as (rest & Hp & Hr);
         exists (rest ++ [Send value (List.length (calls h))]);
         rewrite Hp; split; [reflexivity|];
         now apply forallb_not_init_app ]).
  - destruct (nth_error (calls h) channel) as [call|] eqn:Hc;
      [|discriminate].
    destruct (call_state call); try discriminate.
    inversion He; subst; clear He; simpl.
    rewrite (map_call_value_update _ _ _ _ Hc), length_update.
    repeat split; auto.
    destruct (scope h); auto; destruct Hsc as [Hp Hcalls];
      rewrite Hcalls in Hc; destruct channel; discriminate.
  - destruct (scope h) eqn:Hs; try discriminate;
      [inversion He; subst; clear He; simpl; auto|].
    inversion He; subst; clear He. unfold finally_resume. simpl.
    assert (Hreq' : requests (posted h ++ [Close])
                    = combine (map call_value (map halt (calls h)))
                        (seq 0 (List.length (map halt (calls h))))).
    { rewrite requests_app, map_call_value_halt, length_map. simpl.
      now rewrite app_nil_r. }
    assert (Hsc' : exists rest, posted h ++ [Close] = Init (data h) :: rest
                     /\ forallb (fun c => negb (is_init c)) rest = true).
    { destruct Hsc as (rest & Hp & Hr). exists (rest ++ [Close]).
      rewrite Hp. split; [reflexivity|]. now apply forallb_not_init_app. }
    destruct (settled _) as [[captured|error]|]; simpl; auto.
Qed.

Lemma host_inv_run (d : TData) (events : list HostEvent) (h : Host) :
  hrun events (acquire d) = Some h -> host_inv d h.
Proof.
  apply hrun_invariant with (P := host_inv d).
  - apply host_inv_step.
  - unfold host_inv. simpl. auto.
Qed.

Lemma In_requests (l : list WorkerControl) (v : TSend) (p : MessagePort) :
  In (Send v p) l <-> In (v, p) (requests l).
Proof.
  induction l as [|[d|v' p'|] l IH]; simpl; try tauto.
  - split; [intros [H|H]; [discriminate|tauto]|tauto].
  - split; intros [H|H]; try tauto; left; congruence.
  - split; [intros [H|H]; [discriminate|tauto]|tauto].
Qed.

Lemma In_combine_seq {A : Type} (l : list A) (n : nat) (x : A) (p : nat) :
  In (x, p) (combine l (seq n (List.length l))) <->
  n <= p /\ nth_error l (p - n) = Some x.
Proof.
  revert n. induction l as [|a l IH]; simpl; intros n.
  - split; [contradiction|]. intros [_ H]. destruct (p - n); discriminate.
  - rewrite IH. split.
    + intros [H|[Hle H]].
      * inversion H. subst. rewrite Nat.sub_diag. auto.
      * split; [lia|]. replace (p - n) with (S (p - S n)) by lia. exact H.
    + intros [Hle H]. destruct (p - n) as [|k] eqn:Hk; simpl in H.
      * left. inversion H. f_equal. lia.
      * right. split; [lia|]. replace (p - S n) with k by lia. exact H.
Qed.

Lemma map_snd_combine_seq {A : Type} (l : list A) (n : nat) :
  map snd (combine l (seq n (List.length l))) = seq n (List.length l).
Proof.
  revert n. induction l as [|a l IH]; simpl; intros n; [reflexivity|].
  now rewrite IH.
Qed.

(** A request of the host is one of its calls: the port is the position of
    the call and the value is the value of the call. *)
Lemma host_request_call (d : TData) (h : Host) (v : TSend)
    (p : MessagePort) :
  host_inv d h -> In (v, p) (requests (posted h)) ->
  exists call, nth_error (calls h) p = Some call /\ call_value call = v.
Proof.
  intros (_ & Hreq & _) Hin. rewrite Hreq in Hin.
  rewrite <- (length_map call_value) in Hin.
  apply In_combine_seq in Hin. destruct Hin as [_ Hin].
  rewrite Nat.sub_0_r, nth_error_map in Hin.
  destruct (nth_error (calls h) p) as [call|]; [|discriminate].
  exists call. split; [reflexivity|]. simpl in Hin. congruence.
Qed.

Lemma host_ports_nodup (d : TData) (h : Host) :
  host_inv d h -> NoDup (map snd (requests (posted h))).
Proof.
  intros (_ & Hreq & _). rewrite Hreq, <- (length_map call_value).
  rewrite map_snd_combine_seq. apply seq_NoDup.
Qed.

Lemma hstep_call_send (value : TSend) (h h' : Host) :
  hstep (CallSend value) h = Some h' ->
  h' = mkHost (data h) (scope h) (h_outcome h) (onclose_attached h)
         (posted h ++ [Send value (List.length (calls h))])
         (calls h ++ [mkCall value Pending])
  /\ handle_made h = true.
Proof.
  unfold handle_made. simpl.
  destruct (scope h); try discriminate; intros He; inversion He; auto.
Qed.

Lemma hstep_exit (reason : ExitReason) (h h' : Host) :
  hstep (Exit reason) h = Some h' ->
  (scope h = Acquiring
   /\ h' = mkHost (data h) (Dropped reason) (h_outcome h)
             (onclose_attached h) (posted h) (calls h))
  \/ (scope h = Provided
      /\ h' = finally_resume reason
                (mkHost (data h) Provided (h_outcome h)
                   (onclose_attached h) (posted h ++ [Close])
                   (map halt (calls h)))).
Proof.
  simpl. destruct (scope h); try discriminate; intros He; inversion He;
    auto.
Qed.

Lemma tearing_down_step (reason : ExitReason) (log : list WorkerControl)
    (e : HostEvent) (h h' : Host) :
  tearing_down reason log h -> hstep e h = Some h' ->
  tearing_down reason log h'.
Proof.
  intros [(more & Hlog & Hmore) Hcase] He. unfold tearing_down.
  destruct e as [m|value|channel r|reason']; simpl in He.
  - destruct (h_outcome h) as [c|] eqn:Ho.
    + destruct Hcase as [Hs Ha]. rewrite Hs, Ha in He.
      inversion He; subst; clear He; simpl. rewrite ?Ho. eauto.
    + destruct Hcase as [Hs Ha]. rewrite Hs, Ha in He.
      inversion He; subst; clear He. unfold finally_resume. simpl.
      destruct (onclose m None) as [[value|error]|]; simpl; eauto.
  - assert (Hpost : exists more',
              posted h ++ [Send value (List.length (calls h))] = log ++ more'
              /\ forallb is_send more' = true).
    { exists (more ++ [Send value (List.length (calls h))]).
      rewrite Hlog, app_assoc, forallb_app, Hmore. auto. }
    destruct (h_outcome h) as [c|] eqn:Ho; destruct Hcase as [Hs Ha];
      rewrite Hs in He; inversion He; subst; clear He; simpl;
      rewrite ?Ho, ?Hs; auto.
  - destruct (nth_error (calls h) channel) as [call|]; [|discriminate].
    destruct (call_state call); try discriminate.
    inversion He; subst; clear He; simpl. eauto.
  - destruct (h_outcome h); destruct Hcase as [Hs _]; rewrite Hs in He;
      discriminate.
Qed.

(** C6, as the code has it: for a resource that has been provided, whatever the
    reason its scope ends for (completion, failure or cancellation), the
    teardown starts by posting [close]; the teardown posts nothing else
    (what may follow [close] in the log are the [send] of later calls on
    the handle), the scope ends once, the generator waits with the listener
    attached while the outcome is pending, and as soon as the outcome
    settles, resolved or rejected, the result of [settled] is captured (a
    rejection as [Err], never rethrown) and the listener is removed.
    [settled] never throws. *)
Theorem teardown_order (d : TData) (events : list HostEvent) (h : Host)
    (reason : ExitReason) :
  hrun events (acquire d) = Some h -> scope h = Provided ->
  (forall (o : Operation TReturn) (error : Error),
     settled o <> Some (Thrown error))
  /\ exists h',
       hstep (Exit reason) h = Some h'
       /\ posted h' = posted h ++ [Close]
       /\ forall later h'',
            hrun later h' = Some h'' ->
            (exists more,
               posted h'' = posted h ++ Close :: more
               /\ forallb is_send more = true)
            /\ (forall reason', hstep (Exit reason') h'' = None)
            /\ match h_outcome h'' with
               | None => scope h'' = Releasing reason
                         /\ onclose_attached h'' = true
               | Some c => scope h'' = Released reason (captured_of c)
                           /\ onclose_attached h'' = false
               end
            /\ forall r, h_outcome h'' = None ->
                 exists h3,
                   hstep (Message (close_message r)) h'' = Some h3
                   /\ posted h3 = posted h''
                   /\ scope h3 = Released reason
                                   (match r with
                                    | Ok _ => Ok tt
                                    | Err error => Err error
                                    end)
                   /\ onclose_attached h3 = false.
Proof.
  intros Hrun Hs. split.
  { intros [[v|e]|] error; simpl; discriminate. }
  pose proof (host_inv_run _ _ _ Hrun) as (_ & _ & Hatt & _).
  rewrite Hs in Hatt.
  assert (Hexit : exists h', hstep (Exit reason) h = Some h'
                    /\ posted h' = posted h ++ [Close]
                    /\ tearing_down reason (posted h ++ [Close]) h').
  { simpl. rewrite Hs. eexists. split; [reflexivity|].
    unfold tearing_down, finally_resume. simpl.
    destruct (h_outcome h) as [[v|e]|] eqn:Ho; simpl; rewrite ?Ho;
      (split; [reflexivity|]); (split; [|auto]);
      exists []; now rewrite app_nil_r. }
  destruct Hexit as (h' & He & Hp & Hdown). exists h'.
  split; [assumption|]. split; [assumption|].
  intros later h'' Hlater.
  assert (Hdown' : tearing_down reason (posted h ++ [Close]) h'').
  { revert Hlater. apply hrun_invariant with (P := tearing_down reason _);
      [apply tearing_down_step|assumption]. }
  destruct Hdown' as [(more & Hlog & Hmore) Hcase]. split.
  { exists more. now rewrite Hlog, <- app_assoc. }
  split.
  { intros reason'. simpl.
    destruct (h_outcome h''); destruct Hcase as [Hsc _]; now rewrite Hsc. }
  split; [assumption|].
  intros r Ho. rewrite Ho in Hcase. destruct Hcase as [Hsc Ha].
  simpl. rewrite Hsc, Ha, Ho. eexists. split; [reflexivity|].
  unfold finally_resume. destruct r as [v|e]; simpl; auto.
Qed.

Lemma rejected_step (error : Error) (e : HostEvent) (h h' : Host) :
  scope h = Rejected error /\ posted h = [] /\ calls h = [] ->
  hstep e h = Some h' ->
  scope h' = Rejected error /\ posted h' = [] /\ calls h' = [].
Proof.
  intros (Hs & Hp & Hc) He.
  destruct e as [m|value|channel r|reason]; simpl in He;
    rewrite ?Hs, ?Hc in He; try discriminate.
  - inversion He; subst; clear He; simpl. auto.
  - destruct channel; discriminate.
Qed.

Lemma dropped_step (reason : ExitReason) (e : HostEvent) (h h' : Host) :
  scope h = Dropped reason /\ posted h = [] /\ calls h = [] ->
  hstep e h = Some h' ->
  scope h' = Dropped reason /\ posted h' = [] /\ calls h' = [].
Proof.
  intros (Hs & Hp & Hc) He.
  destruct e as [m|value|channel r|reason']; simpl in He;
    rewrite ?Hs, ?Hc in He; try discriminate.
  - inversion He; subst; clear He; simpl. auto.
  - destruct channel; discriminate.
Qed.

(** C7: the resource generator waits for the first message of the worker:
    until then the handle does not exist.  A first message of type "open"
    makes it post [init] with the configured data and provide the handle;
    any other first message makes the assertion fail with its error, and
    from then on nothing is ever posted or provided.  So a host that has
    posted anything, or accepted a call, or provided the handle, has seen
    "open" as its first message. *)
Theorem handshake (d : TData) :
  (forall value, hstep (CallSend value) (acquire d) = None)
  /\ (forall m, exists h,
        hstep (Message m) (acquire d) = Some h
        /\ if (type m =? "open")%string
           then scope h = Provided /\ posted h = [Init d]
           else scope h = Rejected (assertion_error (type m))
                /\ posted h = [])
  /\ (forall m later h,
        type m <> "open" ->
        hrun (Message m :: later) (acquire d) = Some h ->
        scope h = Rejected (assertion_error (type m))
        /\ posted h = [] /\ calls h = [])
  /\ (forall events h,
        hrun events (acquire d) = Some h ->
        posted h <> [] \/ calls h <> [] \/ scope h = Provided ->
        exists m rest, events = Message m :: rest /\ type m = "open").
Proof.
  assert (Hrej : forall m later h,
             type m <> "open" ->
             hrun (Message m :: later) (acquire d) = Some h ->
             scope h = Rejected (assertion_error (type m))
             /\ posted h = [] /\ calls h = []).
  { intros m later h Hne. simpl.
    destruct (String.eqb_spec (type m) "open") as [Heq|_]; [contradiction|].
    apply hrun_invariant
      with (P := fun h => scope h = Rejected (assertion_error (type m))
                          /\ posted h = [] /\ calls h = []).
    - apply rejected_step.
    - simpl. auto. }
  split; [reflexivity|]. split; [|split; [exact Hrej|]].
  - intros m. simpl. destruct (type m =? "open")%string;
      eexists; split; try reflexivity; simpl; auto.
  - intros [|e rest] h Hrun Hsome.
    + inversion Hrun. subst. simpl in Hsome.
      destruct Hsome as [H|[H|H]]; congruence.
    + destruct e as [m|value|channel r|reason];
        try (simpl in Hrun; try destruct channel; discriminate).
      2:{ simpl in Hrun.
          assert (Hdrop : scope h = Dropped reason
                          /\ posted h = [] /\ calls h = []).
          { revert Hrun. apply hrun_invariant
              with (P := fun h => scope h = Dropped reason
                                  /\ posted h = [] /\ calls h = []).
            - apply dropped_step.
            - simpl. auto. }
          destruct Hdrop as (Hs & Hp & Hc).
          destruct Hsome as [H|[H|H]]; congruence. }
      exists m, rest. split; [reflexivity|].
      destruct (String.eqb_spec (type m) "open") as [Heq|Hne];
        [assumption|].
      destruct (Hrej m rest h Hne Hrun) as (Hs & Hp & Hc).
      destruct Hsome as [H|[H|H]]; congruence.
Qed.

(** ** Runs of the worker, event by event *)

Lemma run_snoc (events : list Event) (e : Event) (w : Worker) :
  run (events ++ [e]) w =
  match run events w with
  | Some w' => step e w'
  | None => None
  end.
Proof.
  rewrite run_app. destruct (run events w) as [w'|]; [|reflexivity].
  simpl. now destruct (step e w').
Qed.

Lemma run_ind (P : list Event -> Worker -> Prop) (w0 : Worker) :
  P [] w0 ->
  (forall events w e w',
     run events w0 = Some w -> P events w -> step e w = Some w' ->
     P (events ++ [e]) w') ->
  forall events w, run events w0 = Some w -> P events w.
Proof.
  intros H0 Hstep events. induction events as [|e events IH] using rev_ind;
    intros w Hrun.
  - inversion Hrun. now subst.
  - rewrite run_snoc in Hrun.
    destruct (run events w0) as [w1|] eqn:Hr; [|discriminate]. eauto.
Qed.

Lemma controls_app (l1 l2 : list Event) :
  controls (l1 ++ l2) = controls l1 ++ controls l2.
Proof.
  induction l1 as [|[c|b fn|s|h|b c|] l1 IH]; simpl; auto. now rewrite IH.
Qed.

Lemma subscribed_app (l1 l2 : list Event) :
  subscribed (l1 ++ l2) = subscribed l1 ++ subscribed l2.
Proof.
  induction l1 as [|[c|b fn|s|h|b c|] l1 IH]; simpl; auto. now rewrite IH.
Qed.

Lemma inits_app (l1 l2 : list WorkerControl) :
  inits (l1 ++ l2) = inits l1 ++ inits l2.
Proof.
  induction l1 as [|[d|v p|] l1 IH]; simpl; auto. now rewrite IH.
Qed.

Lemma map_body_data_update (l : list BodyTask) (b : nat) (body : BodyTask) :
  nth_error l b = Some body ->
  map body_data (update b (stop body) l) = map body_data l.
Proof.
  revert b. induction l as [|a l IH]; intros [|b] H; simpl in *;
    try discriminate.
  - inversion H. reflexivity.
  - now rewrite IH.
Qed.

(** Every [init] control message starts one body task with its data, and
    nothing else starts one. *)
Lemma launched_inits (events : list Event) (w : Worker) :
  run events boot = Some w -> launched w = inits (controls events).
Proof.
  revert events w.
  apply (run_ind (fun events w => launched w = inits (controls events)));
    [reflexivity|].
  intros events w e w' _ IH He. rewrite controls_app, inits_app, <- IH.
  unfold launched. unfold step in He.
  destruct (finalized w); [discriminate|].
  destruct e as [[d|v p|]|b fn|s|h|b c|]; simpl in He; break_match He;
    inversion He; subst; clear He; simpl; rewrite ?app_nil_r; auto.
  - now rewrite map_app.
  - now apply map_body_data_update.
  - rewrite map_map. reflexivity.
Qed.

(** A worker that has taken no control message is as [boot] left it. *)
Lemma no_control_boot (events : list Event) (w : Worker) :
  run events boot = Some w -> controls events = [] -> w = boot.
Proof.
  revert events w.
  apply (run_ind (fun events w => controls events = [] -> w = boot));
    [reflexivity|].
  intros events w e w' _ IH He Hc. rewrite controls_app in Hc.
  apply app_eq_nil in Hc. destruct Hc as [Hc He']. rewrite (IH Hc) in He.
  destruct e as [c|b fn|s|h|b c|]; simpl in He'; try discriminate;
    try destruct b; try destruct s; try destruct h; discriminate.
Qed.

Lemma traced_weaken (reqs reqs' : list (TSend * MessagePort))
    (fns fns' : list (TSend -> Operation TRecv)) (w : Worker) :
  incl reqs reqs' -> incl fns fns' -> traced reqs fns w ->
  traced reqs' fns' w.
Proof.
  intros Hr Hf (Hs & Hh & Hp). repeat split.
  - apply Hf. now apply Hs.
  - intros item Hi. apply Hr. destruct (Hs sub H) as [_ Hq]. now apply Hq.
  - intros task Ht. destruct (Hh task Ht) as (v & fn & H1 & H2 & H3).
    exists v, fn. auto.
  - intros p r Hin. destruct (Hp p r Hin) as (v & fn & c & H1 & H2 & H3).
    exists v, fn, c. intuition.
Qed.

Lemma traced_step (reqs : list (TSend * MessagePort))
    (fns : list (TSend -> Operation TRecv)) (e : Event) (w w' : Worker) :
  traced reqs fns w -> step e w = Some w' ->
  traced (reqs ++ requests (controls [e])) (fns ++ subscribed [e]) w'.
Proof.
  intros Ht He.
  assert (Hw : traced (reqs ++ requests (controls [e]))
                 (fns ++ subscribed [e]) w).
  { eapply traced_weaken; [| |exact Ht]; apply incl_appl, incl_refl. }
  clear Ht. destruct Hw as (Hs & Hh & Hp).
  unfold step in He. destruct (finalized w); [discriminate|].
  destruct e as [[d|v p|]|b fn|s|h|b c|]; simpl in *; break_match He;
    inversion He; subst; clear He; unfold traced; simpl;
    (split; [|split]); try exact Hs; try exact Hh; try exact Hp.
  - (* send *)
    intros sub H. apply in_map_iff in H. destruct H as (sub0 & <- & Hin).
    simpl. destruct (Hs sub0 Hin) as [Hfn Hq]. split; [exact Hfn|].
    intros item Hi. apply in_app_or in Hi. destruct Hi as [Hi|[<-|[]]].
    + now apply Hq.
    + apply in_or_app. right. now left.
  - (* forEach *)
    intros sub H. apply in_app_or in H. destruct H as [H|[<-|[]]];
      [now apply Hs|].
    simpl. split; [|contradiction]. apply in_or_app. right. now left.
  - (* iterate: subscriptions *)
    match goal with
    | Hn : nth_error (sent w) s = Some ?x, Hl : sub_queue ?x = _ |- _ =>
        destruct (Hs x (nth_error_In _ _ Hn)) as [Hfn Hq]; rewrite Hl in Hq
    end.
    intros sub H. apply In_update in H. destruct H as [->|H];
      [|now apply Hs].
    simpl. split; [exact Hfn|]. intros item Hi. apply Hq. now right.
  - (* iterate: handlers *)
    match goal with
    | Hn : nth_error (sent w) s = Some ?x, Hl : sub_queue ?x = _ |- _ =>
        destruct (Hs x (nth_error_In _ _ Hn)) as [Hfn Hq]; rewrite Hl in Hq
    end.
    intros task Htask. apply in_app_or in Htask.
    destruct Htask as [Htask|[<-|[]]]; [now apply Hh|].
    simpl. eexists _, _. split; [apply Hq; now left|].
    split; [exact Hfn|reflexivity].
  - (* answer: handlers *)
    intros task Htask. apply Hh. eapply In_drop; eauto.
  - (* answer: posts *)
    intros p r Hin. apply in_app_or in Hin.
    destruct Hin as [Hin|[Hin|[]]]; [now apply Hp|].
    inversion Hin; subst; clear Hin.
    match goal with
    | Hn : nth_error (handlers w) h = Some ?x |- _ =>
        destruct (Hh x (nth_error_In _ _ Hn)) as (v & fn & H1 & H2 & H3)
    end.
    exists v, fn, c. repeat split; auto. congruence.
  - (* body end: subscriptions *)
    intros sub H. apply filter_In in H. destruct H as [H _]. now apply Hs.
  - (* body end: handlers *)
    intros task Htask. apply filter_In in Htask. now apply Hh.
  - (* finish: subscriptions *)
    intros sub [].
  - (* finish: handlers *)
    intros task [].
  - (* finish: posts *)
    intros p r Hin. apply in_app_or in Hin.
    destruct Hin as [Hin|[Hin|[]]]; [now apply Hp|discriminate].
Qed.

Lemma traced_run (events : list Event) (w : Worker) :
  run events boot = Some w ->
  traced (requests (controls events)) (subscribed events) w.
Proof.
  revert events w.
  apply (run_ind (fun events w =>
                    traced (requests (controls events)) (subscribed events)
                      w)).
  - repeat split; simpl; try contradiction.
    intros p r [H|[]]. discriminate.
  - intros events w e w' _ IH He.
    rewrite controls_app, requests_app, subscribed_app.
    exact (traced_step _ _ _ _ _ IH He).
Qed.

(** ** Counting the responses on one port *)

Lemma port_count_snoc (p : MessagePort) (items : list (TSend * MessagePort))
    (v : TSend) (q : MessagePort) :
  port_count p (items ++ [(v, q)])
  = port_count p items + (if Nat.eqb q p then 1 else 0).
Proof.
  unfold port_count. rewrite filter_app, length_app. simpl.
  now destruct (Nat.eqb q p).
Qed.

Lemma queued_enqueue (p : MessagePort) (v : TSend) (q : MessagePort)
    (l : list Subscription) :
  list_sum (map (fun sub => port_count p (sub_queue sub))
              (map (enqueue (v, q)) l))
  = list_sum (map (fun sub => port_count p (sub_queue sub)) l)
    + (if Nat.eqb q p then List.length l else 0).
Proof.
  induction l as [|a l IH]; simpl.
  - now destruct (Nat.eqb q p).
  - rewrite IH, port_count_snoc. destruct (Nat.eqb q p); lia.
Qed.

Lemma list_sum_update {A : Type} (f : A -> nat) (l : list A) (i : nat)
    (x y : A) :
  nth_error l i = Some x ->
  list_sum (map f (update i y l)) + f x = list_sum (map f l) + f y.
Proof.
  revert i. induction l as [|a l IH]; intros [|i] H; simpl in *;
    try discriminate.
  - inversion H. lia.
  - specialize (IH _ H). lia.
Qed.

Lemma length_filter_drop {A : Type} (g : A -> bool) (l : list A) (i : nat)
    (x : A) :
  nth_error l i = Some x ->
  List.length (filter g (drop i l)) + (if g x then 1 else 0)
  = List.length (filter g l).
Proof.
  revert i. induction l as [|a l IH]; intros [|i] H; simpl in *;
    try discriminate.
  - inversion H. subst. destruct (g x); simpl; lia.
  - specialize (IH _ H). destruct (g a); simpl; lia.
Qed.

Lemma list_sum_filter {A : Type} (f : A -> nat) (g : A -> bool)
    (l : list A) :
  list_sum (map f (filter g l)) <= list_sum (map f l).
Proof.
  induction l as [|a l IH]; simpl; [lia|]. destruct (g a); simpl; lia.
Qed.

Lemma length_filter_filter {A : Type} (g g' : A -> bool) (l : list A) :
  List.length (filter g (filter g' l)) <= List.length (filter g l).
Proof.
  induction l as [|a l IH]; simpl; [lia|].
  destruct (g' a); simpl; destruct (g a); simpl; lia.
Qed.

(** One step adds to what is pending on a port only when it dispatches a
    [send] message that carries the port, and then one for every
    subscription; only [forEach] adds a subscription. *)
Lemma pending_step (p : MessagePort) (e : Event) (w w' : Worker) :
  step e w = Some w' ->
  pending_on p w'
  <= pending_on p w
     + port_count p (requests (controls [e])) * List.length (sent w)
  /\ List.length (sent w')
     <= List.length (sent w) + List.length (subscribed [e]).
Proof.
  intros He. unfold step in He. destruct (finalized w); [discriminate|].
  unfold pending_on.
  destruct e as [[d|v q|]|b fn|s|h|b c|]; simpl in *; break_match He;
    inversion He; subst; clear He; simpl.
  - lia.
  - rewrite queued_enqueue, length_map. unfold port_count. simpl.
    destruct (Nat.eqb q p); simpl; lia.
  - lia.
  - rewrite map_app, list_sum_app, length_app. simpl. lia.
  - match goal with
    | Hn : nth_error (sent w) s = Some ?x,
      Hl : sub_queue ?x = (_, ?port) :: ?rest |- _ =>
        pose proof (list_sum_update
                      (fun sub => port_count p (sub_queue sub)) _ _ _
                      (mkSubscription (sub_owner x) (sub_fn x) rest) Hn)
          as Hsum;
        cbv beta in Hsum; rewrite Hl in Hsum;
        rewrite filter_app, length_app, length_update; simpl in *;
        unfold port_count in *; simpl in *;
        destruct (Nat.eqb port p); simpl in *; lia
    end.
  - match goal with
    | Hn : nth_error (handlers w) h = Some ?x |- _ =>
        pose proof (length_filter_drop
                      (fun t => Nat.eqb (task_response t) p) _ _ _ Hn) as Hl;
        cbv beta in Hl; rewrite count_port_app; simpl in *;
        destruct (Nat.eqb (task_response x) p); simpl in *; lia
    end.
  - pose proof (list_sum_filter (fun sub => port_count p (sub_queue sub))
                  (fun s => negb (owned_by b (sub_owner s))) (sent w)).
    pose proof (length_filter_filter
                  (fun t => Nat.eqb (task_response t) p)
                  (fun t => negb (owned_by b (task_owner t))) (handlers w)).
    pose proof (filter_length_le
                  (fun s => negb (owned_by b (sub_owner s))) (sent w)).
    lia.
  - rewrite count_port_app. simpl. lia.
Qed.

Lemma pending_run (p : MessagePort) (events : list Event) (w : Worker) :
  run events boot = Some w ->
  pending_on p w
  <= port_count p (requests (controls events))
     * List.length (subscribed events)
  /\ List.length (sent w) <= List.length (subscribed events).
Proof.
  revert events w.
  apply (run_ind (fun events w =>
           pending_on p w
           <= port_count p (requests (controls events))
              * List.length (subscribed events)
           /\ List.length (sent w) <= List.length (subscribed events))).
  - simpl. unfold pending_on. simpl. lia.
  - intros events w e w' _ [IH1 IH2] He.
    destruct (pending_step p _ _ _ He) as [H1 H2].
    rewrite controls_app, requests_app, subscribed_app, length_app.
    assert (Hsplit : port_count p (requests (controls events)
                                     ++ requests (controls [e]))
                     = port_count p (requests (controls events))
                       + port_count p (requests (controls [e]))).
    { unfold port_count. now rewrite filter_app, length_app. }
    rewrite Hsplit. clear Hsplit.
    generalize dependent (port_count p (requests (controls [e]))).
    generalize dependent (port_count p (requests (controls events))).
    generalize dependent (List.length (subscribed [e])).
    generalize dependent (List.length (subscribed events)).
    generalize dependent (List.length (sent w')).
    generalize dependent (List.length (sent w)).
    generalize dependent (pending_on p w').
    generalize dependent (pending_on p w).
    intros. split; [nia|lia].
Qed.

(** ** Runs of the system *)

Lemma sys_run_app (l1 l2 : list SystemEvent) (s : System) :
  sys_run (l1 ++ l2) s =
  match sys_run l1 s with
  | Some s' => sys_run l2 s'
  | None => None
  end.
Proof.
  revert s. induction l1 as [|e l1 IH]; simpl; intros s; [reflexivity|].
  destruct (sys_step e s); auto.
Qed.

Lemma sys_run_ind (P : list SystemEvent -> System -> Prop) (s0 : System) :
  P [] s0 ->
  (forall events s e s',
     sys_run events s0 = Some s -> P events s -> sys_step e s = Some s' ->
     P (events ++ [e]) s') ->
  forall events s, sys_run events s0 = Some s -> P events s.
Proof.
  intros H0 Hstep events. induction events as [|e events IH] using rev_ind;
    intros s Hrun.
  - inversion Hrun. now subst.
  - rewrite sys_run_app in Hrun.
    destruct (sys_run events s0) as [s1|] eqn:Hr; [|discriminate].
    simpl in Hrun. destruct (sys_step e s1) as [s2|] eqn:He; [|discriminate].
    inversion Hrun. subst. eauto.
Qed.

Lemma sys_run_invariant (P : System -> Prop) :
  (forall e s s', P s -> sys_step e s = Some s' -> P s') ->
  forall events s s', P s -> sys_run events s = Some s' -> P s'.
Proof.
  intros Hstep. induction events as [|e rest IH]; simpl; intros s s' Hs Hrun.
  - inversion Hrun. now subst.
  - destruct (sys_step e s) as [s1|] eqn:He; [|discriminate]. eauto.
Qed.

Lemma hrun_snoc (events : list HostEvent) (e : HostEvent) (h h1 h' : Host) :
  hrun events h = Some h1 -> hstep e h1 = Some h' ->
  hrun (events ++ [e]) h = Some h'.
Proof.
  revert h. induction events as [|e0 events IH]; simpl; intros h Hrun He.
  - inversion Hrun. subst. now rewrite He.
  - destruct (hstep e0 h); [|discriminate]. eauto.
Qed.

Lemma sys_subscribed_app (l1 l2 : list SystemEvent) :
  sys_subscribed (l1 ++ l2) = sys_subscribed l1 ++ sys_subscribed l2.
Proof.
  induction l1 as [|[v|r| | |c|[c|b fn|s|h|b c|]] l1 IH]; simpl; auto.
  now rewrite IH.
Qed.

Lemma hstep_posted (e : HostEvent) (h h' : Host) :
  hstep e h = Some h' -> exists l, posted h' = posted h ++ l.
Proof.
  intros He. destruct e as [m|value|channel r|reason]; simpl in He;
    unfold finally_resume in He; break_match He; inversion He; subst;
    clear He; simpl; eauto using app_nil_r.
  all: try (exists []; now rewrite app_nil_r).
Qed.

Lemma step_posts (e : Event) (w w' : Worker) :
  step e w = Some w' -> exists l, posts w' = posts w ++ l.
Proof.
  intros He. unfold step in He.
  destruct e as [[d|v p|]|b fn|s|h|b c|]; simpl in He; break_match He;
    inversion He; subst; clear He; simpl; eauto.
  all: try (exists []; now rewrite app_nil_r).
Qed.

Lemma firstn_snoc_nth {A : Type} (l : list A) (k : nat) (x : A) :
  nth_error l k = Some x -> firstn (S k) l = firstn k l ++ [x].
Proof.
  revert k. induction l as [|a l IH]; intros [|k] H; simpl in *;
    try discriminate.
  - now inversion H.
  - now rewrite <- IH.
Qed.

Lemma firstn_prefix {A : Type} (l extra : list A) (k : nat) :
  k <= List.length l -> firstn k (l ++ extra) = firstn k l.
Proof.
  intros Hk. rewrite firstn_app.
  replace (k - List.length l) with 0 by lia. simpl. apply app_nil_r.
Qed.

(** The host of a system is a host run, the worker a worker run whose
    control messages are the ones the host posted, in order, as far as they
    were dispatched. *)
Lemma system_components (d : TData) (events : list SystemEvent)
    (s : System) :
  sys_run events (start d) = Some s ->
  (exists hevents, hrun hevents (acquire d) = Some (host s))
  /\ (exists wevents,
        run wevents boot = Some (worker s)
        /\ controls wevents = firstn (dispatched s) (posted (host s))
        /\ subscribed wevents = sys_subscribed events)
  /\ dispatched s <= List.length (posted (host s)).
Proof.
  revert events s.
  apply (sys_run_ind (fun events s =>
    (exists hevents, hrun hevents (acquire d) = Some (host s))
    /\ (exists wevents,
          run wevents boot = Some (worker s)
          /\ controls wevents = firstn (dispatched s) (posted (host s))
          /\ subscribed wevents = sys_subscribed events)
    /\ dispatched s <= List.length (posted (host s)))).
  - split; [exists []; reflexivity|]. split; [|simpl; lia].
    exists []. auto.
  - intros events s e s' _ ((hevents & Hh) & (wevents & Hw & Hc & Hf) & Hk) He.
    rewrite sys_subscribed_app.
    assert (Hhost : forall he h',
               hstep he (host s) = Some h' ->
               (exists hevents', hrun hevents' (acquire d) = Some h')
               /\ (exists wevents',
                     run wevents' boot = Some (worker s)
                     /\ controls wevents'
                        = firstn (dispatched s) (posted h')
                     /\ subscribed wevents' = sys_subscribed events ++ [])
               /\ dispatched s <= List.length (posted h')).
    { intros he h' Hhe. destruct (hstep_posted _ _ _ Hhe) as (l & Hl).
      split; [exists (hevents ++ [he]); eapply hrun_snoc; eauto|].
      rewrite Hl, firstn_prefix, length_app by assumption.
      split; [|lia]. exists wevents. rewrite app_nil_r. auto. }
    assert (Hlocal : forall we w',
               step we (worker s) = Some w' -> controls [we] = [] ->
               (exists hevents', hrun hevents' (acquire d) = Some (host s))
               /\ (exists wevents',
                     run wevents' boot = Some w'
                     /\ controls wevents'
                        = firstn (dispatched s) (posted (host s))
                     /\ subscribed wevents'
                        = sys_subscribed events ++ subscribed [we])
               /\ dispatched s <= List.length (posted (host s))).
    { intros we w' Hwe Hnc. split; [eauto|]. split; [|assumption].
      exists (wevents ++ [we]).
      rewrite run_snoc, Hw, controls_app, Hnc, app_nil_r, subscribed_app, Hf.
      auto. }
    destruct e as [value|reason| | |channel|le]; unfold sys_step in He;
      cbv beta iota in He.
    + destruct (hstep (CallSend value) (host s)) as [h'|] eqn:Hhe;
        [|discriminate].
      inversion He; subst; clear He. simpl. eapply Hhost; eauto.
    + destruct (hstep (Exit reason) (host s)) as [h'|] eqn:Hhe;
        [|discriminate].
      inversion He; subst; clear He. simpl. eapply Hhost; eauto.
    + destruct (nth_error (posted (host s)) (dispatched s)) as [c|] eqn:Hn;
        [|discriminate].
      destruct (step (Control c) (worker s)) as [w'|] eqn:Hwe;
        [|discriminate].
      inversion He; subst; clear He. cbn [host worker dispatched observed].
      split; [eauto|]. split.
      * exists (wevents ++ [Control c]).
        rewrite (firstn_snoc_nth _ _ _ Hn).
        rewrite run_snoc, Hw, controls_app, Hc, subscribed_app, Hf.
        cbn [controls subscribed]. auto.
      * assert (dispatched s < List.length (posted (host s)))
          by (apply nth_error_Some; congruence).
        lia.
    + destruct (nth_error (lifecycle (posts (worker s))) (observed s))
        as [m|]; [|discriminate].
      destruct (hstep (Message m) (host s)) as [h'|] eqn:Hhe;
        [|discriminate].
      inversion He; subst; clear He. simpl. eapply Hhost; eauto.
    + destruct (first_response channel (posts (worker s))) as [r|];
        [|discriminate].
      destruct (hstep (Reply channel r) (host s)) as [h'|] eqn:Hhe;
        [|discriminate].
      inversion He; subst; clear He. simpl. eapply Hhost; eauto.
    + destruct le as [c|b fn|i|i|b c|]; try discriminate.
      all: match type of He with
           | match step ?we _ with _ => _ end = _ =>
               destruct (step we (worker s)) as [w'|] eqn:Hwe;
               [|discriminate];
               inversion He; subst; clear He; simpl;
               apply (Hlocal we w' Hwe eq_refl)
           end.
Qed.

Lemma inits_none (l : list WorkerControl) (n : nat) :
  forallb (fun c => negb (is_init c)) l = true -> inits (firstn n l) = [].
Proof.
  revert n. induction l as [|c l IH]; intros [|n] H; simpl in *; auto.
  apply andb_prop in H. destruct H as [Hc Hl].
  destruct c; simpl in *; try discriminate; auto.
Qed.

(** C9: a worker that is awaiting [init] and takes an [init] message is
    running afterwards, with one body task started with the data of the
    message; in any run of the worker, body tasks are started by [init]
    messages and by nothing else, once for each.  Connected to the host, the
    worker is as [boot] left it and awaiting [init] until it dispatches its
    first control message, which is the host's [init]; from then on it has
    started the body once, with the data the host was configured with, and
    never awaits [init] again. *)
Theorem init_starts_body :
  (forall (w : Worker) (d : TData),
     phase w = AwaitingInit ->
     exists w',
       step (Control (Init d)) w = Some w'
       /\ phase w' = Running
       /\ bodies w' = [mkBody d true]
       /\ outcome w' = outcome w /\ posts w' = posts w)
  /\ (forall events w,
        run events boot = Some w -> launched w = inits (controls events))
  /\ (forall (d : TData) events s,
        sys_run events (start d) = Some s ->
        (forall c, nth_error (posted (host s)) 0 = Some c -> c = Init d)
        /\ ((dispatched s = 0 /\ worker s = boot
             /\ phase (worker s) = AwaitingInit)
            \/ (0 < dispatched s
                /\ nth_error (posted (host s)) 0 = Some (Init d)
                /\ launched (worker s) = [d]
                /\ phase (worker s) <> AwaitingInit))).
Proof.
  split; [|split; [exact launched_inits|]].
  - intros w d Hphase. unfold phase in Hphase. unfold step.
    destruct (finalized w) eqn:Hf; [discriminate|].
    destruct (bodies w) eqn:Hb; [|discriminate].
    eexists. split; [reflexivity|]. unfold phase. simpl. rewrite Hf, Hb.
    auto.
  - intros d events s Hrun.
    destruct (system_components _ _ _ Hrun)
      as ((hevents & Hh) & (wevents & Hw & Hc & _) & Hk).
    pose proof (host_inv_run _ _ _ Hh) as (_ & _ & _ & Hsc).
    assert (Hposted : posted (host s) = []
                      \/ exists rest,
                           posted (host s) = Init d :: rest
                           /\ forallb (fun c => negb (is_init c)) rest = true).
    { destruct (scope (host s)); try tauto; destruct Hsc; auto. }
    split.
    { intros c Hn. destruct Hposted as [Hp|(rest & Hp & _)];
        rewrite Hp in Hn; simpl in Hn; congruence. }
    destruct (dispatched s) as [|k] eqn:Hd.
    + left. simpl in Hc. rewrite (no_control_boot _ _ Hw Hc). auto.
    + right. destruct Hposted as [Hp|(rest & Hp & Hrest)].
      * rewrite Hp in Hk. simpl in Hk. lia.
      * split; [lia|]. split; [now rewrite Hp|].
        pose proof (launched_inits _ _ Hw) as Hl.
        rewrite Hc, Hp in Hl. simpl in Hl.
        rewrite (inits_none _ _ Hrest) in Hl. split; [assumption|].
        unfold phase. unfold launched in Hl.
        destruct (finalized (worker s)); [discriminate|].
        destruct (bodies (worker s)); [discriminate|discriminate].
Qed.

(** ** Calls and their responses *)

Lemma first_response_In (p : MessagePort) (l : list Post)
    (r : Result TRecv) :
  first_response p l = Some r -> In (ToPort p r) l.
Proof.
  induction l as [|[m|q r'] l IH]; simpl; intros H; try discriminate; auto.
  destruct (Nat.eqb_spec q p) as [->|Hne]; auto.
  inversion H. auto.
Qed.

Lemma calls_finally_resume (reason : ExitReason) (h : Host) :
  calls (finally_resume reason h) = calls h.
Proof.
  unfold finally_resume. now destruct (settled _) as [[]|].
Qed.

Lemma scope_finally_resume (reason : ExitReason) (h : Host) :
  scope (finally_resume reason h) <> Provided
  /\ scope (finally_resume reason h) <> Acquiring.
Proof.
  unfold finally_resume.
  destruct (settled _) as [[]|]; simpl; split; discriminate.
Qed.

Lemma nth_error_snoc {A : Type} (l : list A) (x y : A) (p : nat) :
  nth_error (l ++ [x]) p = Some y ->
  nth_error l p = Some y \/ (p = List.length l /\ y = x).
Proof.
  intros H. destruct (Nat.lt_ge_cases p (List.length l)) as [Hlt|Hge].
  - left. now rewrite nth_error_app1 in H.
  - right. rewrite nth_error_app2 in H by assumption.
    destruct (p - List.length l) as [|k] eqn:Hk; simpl in H.
    + inversion H. split; [lia|reflexivity].
    + destruct k; discriminate.
Qed.

(** How one step of the host changes the call on a given channel. *)
Lemma call_step (e : HostEvent) (h h' : Host) (p : MessagePort)
    (call : SendCall) :
  hstep e h = Some h' -> nth_error (calls h) p = Some call ->
  exists call',
    nth_error (calls h') p = Some call'
    /\ call_value call' = call_value call
    /\ (call_state call' = call_state call
        \/ (exists r, e = Reply p r)
        \/ (exists reason, e = Exit reason /\ call_state call' = Halted)).
Proof.
  intros He Hc. destruct e as [m|value|channel r|reason]; simpl in He.
  - exists call. destruct (scope h); try destruct (type m =? "open")%string;
      inversion He; subst; clear He; rewrite ?calls_finally_resume; simpl;
      auto.
  - destruct (scope h); try discriminate; inversion He; subst; clear He;
      simpl; exists call; (split; [|auto]);
      (rewrite nth_error_app1; [assumption|]);
      apply nth_error_Some; congruence.
  - destruct (nth_error (calls h) channel) as [call0|] eqn:Hc0;
      [|discriminate].
    destruct (call_state call0) eqn:Hst; try discriminate.
    inversion He; subst; clear He. simpl. rewrite nth_error_update.
    destruct (Nat.eqb_spec p channel) as [->|Hne].
    + rewrite Hc0. simpl. eexists. split; [reflexivity|].
      simpl. split; [congruence|]. right. left. eauto.
    + exists call. auto.
  - destruct (scope h); try discriminate; inversion He; subst; clear He;
      [exists call; simpl; auto|].
    rewrite calls_finally_resume. simpl. rewrite nth_error_map, Hc. simpl.
    eexists. split; [reflexivity|]. unfold halt.
    destruct (call_state call) eqn:Hst; simpl; auto.
    split; [reflexivity|]. right. right. eauto.
Qed.

(** A call found resumed after a step was resumed before it, or the step
    is the arrival of a response on its channel. *)
Lemma resumed_origin (e : HostEvent) (h h' : Host) (p : MessagePort)
    (call' : SendCall) (c : Completion TRecv) :
  hstep e h = Some h' -> nth_error (calls h') p = Some call' ->
  call_state call' = Resumed c ->
  (exists call, nth_error (calls h) p = Some call
                /\ call_state call = Resumed c)
  \/ (exists r, e = Reply p r /\ c = send_result r).
Proof.
  intros He Hc Hst. destruct e as [m|value|channel r|reason]; simpl in He.
  - left. exists call'. split; [|assumption].
    destruct (scope h); try destruct (type m =? "open")%string;
      inversion He; subst; clear He;
      rewrite ?calls_finally_resume in Hc; simpl in Hc; auto.
  - apply hstep_call_send in He as [-> _].
    simpl in Hc. apply nth_error_snoc in Hc. destruct Hc as [Hc|[_ ->]].
    + left. eauto.
    + discriminate.
  - destruct (nth_error (calls h) channel) as [call0|] eqn:Hc0;
      [|discriminate].
    destruct (call_state call0) eqn:Hst0; try discriminate.
    inversion He; subst; clear He. simpl in Hc.
    rewrite nth_error_update in Hc.
    destruct (Nat.eqb_spec p channel) as [->|Hne].
    + rewrite Hc0 in Hc. simpl in Hc. inversion Hc. subst. simpl in Hst.
      right. exists r. split; congruence.
    + left. eauto.
  - apply hstep_exit in He as [[_ ->]|[_ ->]]; [left; eauto|].
    rewrite calls_finally_resume in Hc. simpl in Hc.
    rewrite nth_error_map in Hc.
    destruct (nth_error (calls h) p) as [call|] eqn:Hc0; [|discriminate].
    simpl in Hc. inversion Hc. subst. left. exists call.
    split; [reflexivity|]. unfold halt in Hst.
    destruct (call_state call) eqn:Hst0; simpl in Hst; congruence.
Qed.

Lemma answered_step (e : SystemEvent) (s s' : System) :
  answered s -> sys_step e s = Some s' -> answered s'.
Proof.
  intros Ha He p call c Hc Hst.
  assert (Hhost : forall he h',
             hstep he (host s) = Some h' ->
             (forall r, he = Reply p r ->
                        In (ToPort p r) (posts (worker s))) ->
             nth_error (calls h') p = Some call ->
             exists r, In (ToPort p r) (posts (worker s))
                       /\ c = send_result r).
  { intros he h' Hhe Hreply Hc'.
    destruct (resumed_origin _ _ _ _ _ _ Hhe Hc' Hst)
      as [(call0 & Hc0 & Hst0)|(r & -> & ->)].
    - eapply Ha; eauto.
    - exists r. split; [|reflexivity]. now apply Hreply. }
  assert (Hworker : forall we w',
             step we (worker s) = Some w' ->
             nth_error (calls (host s)) p = Some call ->
             exists r, In (ToPort p r) (posts w') /\ c = send_result r).
  { intros we w' Hwe Hc'. destruct (Ha _ _ _ Hc' Hst) as (r & Hin & Hr).
    destruct (step_posts _ _ _ Hwe) as (l & Hl). exists r.
    rewrite Hl. split; [apply in_or_app; now left|assumption]. }
  destruct e as [value|reason| | |channel|le]; unfold sys_step in He;
    cbv beta iota in He.
  - destruct (hstep (CallSend value) (host s)) as [h'|] eqn:Hhe;
      [|discriminate].
    inversion He; subst; clear He. cbn [host worker] in *.
    apply (Hhost _ _ Hhe); [discriminate|exact Hc].
  - destruct (hstep (Exit reason) (host s)) as [h'|] eqn:Hhe;
      [|discriminate].
    inversion He; subst; clear He. cbn [host worker] in *.
    apply (Hhost _ _ Hhe); [discriminate|exact Hc].
  - destruct (nth_error (posted (host s)) (dispatched s)) as [ctl|];
      [|discriminate].
    destruct (step (Control ctl) (worker s)) as [w'|] eqn:Hwe;
      [|discriminate].
    inversion He; subst; clear He. cbn [host worker] in *. eauto.
  - destruct (nth_error (lifecycle (posts (worker s))) (observed s))
      as [m|]; [|discriminate].
    destruct (hstep (Message m) (host s)) as [h'|] eqn:Hhe; [|discriminate].
    inversion He; subst; clear He. cbn [host worker] in *.
    apply (Hhost _ _ Hhe); [discriminate|exact Hc].
  - destruct (first_response channel (posts (worker s))) as [r|] eqn:Hr;
      [|discriminate].
    destruct (hstep (Reply channel r) (host s)) as [h'|] eqn:Hhe;
      [|discriminate].
    inversion He; subst; clear He. cbn [host worker] in *.
    apply (Hhost _ _ Hhe); [|exact Hc].
    intros r' Heq. inversion Heq. subst. now apply first_response_In.
  - destruct le as [ctl|b fn|i|i|b c0|]; try discriminate.
    all: match type of He with
         | match step ?we _ with _ => _ end = _ =>
             destruct (step we (worker s)) as [w'|] eqn:Hwe;
             [|discriminate];
             inversion He; subst; clear He; cbn [host worker] in *;
             apply (Hworker we w' Hwe Hc)
         end.
Qed.

Lemma answered_run (d : TData) (events : list SystemEvent) (s : System) :
  sys_run events (start d) = Some s -> answered s.
Proof.
  apply sys_run_invariant with (P := answered).
  - intros e s0 s1. apply answered_step.
  - intros p call c Hc. destruct p; discriminate.
Qed.




Lemma requests_firstn_skipn (l : list WorkerControl) (k : nat) :
  requests l = requests (firstn k l) ++ requests (skipn k l).
Proof.
  now rewrite <- requests_app, firstn_skipn.
Qed.

Lemma count_port_pending (p : MessagePort) (w : Worker) :
  count_port p (posts w) <= pending_on p w.
Proof.
  unfold pending_on. lia.
Qed.

Lemma dispatched_requests (d : TData) (h : Host) (k : nat) (v : TSend)
    (p : MessagePort) :
  host_inv d h -> In (v, p) (requests (firstn k (posted h))) ->
  exists call, nth_error (calls h) p = Some call /\ call_value call = v.
Proof.
  intros Hinv Hin. apply (host_request_call d); [assumption|].
  rewrite (requests_firstn_skipn _ k). apply in_or_app. now left.
Qed.

Lemma send_result_try_result (c : Completion TRecv) :
  send_result (try_result c) = c.
Proof.
  now destruct c.
Qed.

(** Every response the worker posted on a port is the result of a
    subscribed handler on the value of the call that owns the port. *)
Lemma posted_by_handler (d : TData) (events : list SystemEvent)
    (s : System) (p : MessagePort) (r : Result TRecv) :
  sys_run events (start d) = Some s ->
  In (ToPort p r) (posts (worker s)) ->
  exists call fn c,
    nth_error (calls (host s)) p = Some call
    /\ In fn (sys_subscribed events)
    /\ fn (call_value call) = Some c
    /\ r = try_result c.
Proof.
  intros Hrun Hin.
  destruct (system_components _ _ _ Hrun)
    as ((hevents & Hh) & (wevents & Hw & Hc & Hf) & Hk).
  pose proof (host_inv_run _ _ _ Hh) as Hinv.
  pose proof (traced_run _ _ Hw) as (_ & _ & Hposts).
  rewrite Hc, Hf in Hposts.
  destruct (Hposts p r Hin) as (v & fn & c & Hv & Hfn & Hr).
  destruct (dispatched_requests _ _ _ _ _ Hinv Hv) as (call & Hcall & <-).
  exists call, fn, c. auto.
Qed.

(** A call that was resumed ended the way a subscribed handler ends on the
    value of that call. *)
Lemma resumed_by_handler (d : TData) (events : list SystemEvent)
    (s : System) (p : MessagePort) (call : SendCall)
    (c : Completion TRecv) :
  sys_run events (start d) = Some s ->
  nth_error (calls (host s)) p = Some call ->
  call_state call = Resumed c ->
  exists fn, In fn (sys_subscribed events) /\ fn (call_value call) = Some c.
Proof.
  intros Hrun Hcall Hst.
  destruct (answered_run _ _ _ Hrun p call c Hcall Hst) as (r & Hin & ->).
  destruct (posted_by_handler _ _ _ _ _ Hrun Hin)
    as (call' & fn & c' & Hcall' & Hfn & Hv & ->).
  exists fn. split; [assumption|].
  rewrite send_result_try_result. congruence.
Qed.


(** C1: on a provided resource, [send(v)] takes a channel no earlier
    request uses, posts the [send] control message with [v] and that
    channel's port, and stays suspended; the first response on the channel
    resumes it, returning the value of an [Ok] and throwing the error of an
    [Err].  Through a worker whose body iterates with handler [fn], the call
    ends the way [fn v] ends: the worker posts [Ok] or [Err] of it on the
    port and the call returns or throws accordingly; and in every run of
    the connected system, a call that was resumed ended the way a
    subscribed handler ends on the value of that call, so with handlers
    that always return one reply every resumed call returns that reply. *)
Theorem send_round_trip :
  (forall (d : TData) events h value,
     hrun events (acquire d) = Some h -> scope h = Provided ->
     exists h',
       hstep (CallSend value) h = Some h'
       /\ (forall v p, In (Send v p) (posted h) -> p <> List.length (calls h))
       /\ posted h' = posted h ++ [Send value (List.length (calls h))]
       /\ nth_error (calls h') (List.length (calls h))
          = Some (mkCall value Pending)
       /\ forall r, exists h'',
            hstep (Reply (List.length (calls h)) r) h' = Some h''
            /\ nth_error (calls h'') (List.length (calls h))
               = Some (mkCall value
                         (Resumed (match r with
                                   | Ok x => Returned x
                                   | Err error => Thrown error
                                   end))))
  /\ (forall (d : TData) (fn : TSend -> Operation TRecv) value c,
       fn value = Some c ->
       exists s,
         sys_run [Notify; Deliver; Local (ForEach 0 fn); UserCall value;
                  Deliver; Local (Iterate 0); Local (Answer 0); Respond 0]
           (start d) = Some s
         /\ posted (host s) = [Init d; Send value 0]
         /\ posts (worker s) = [ToHost open_message; ToPort 0 (try_result c)]
         /\ calls (host s) = [mkCall value (Resumed c)]
         /\ outcome (worker s) = None)
  /\ forall (d : TData) events s p call c (reply : TRecv),
       sys_run events (start d) = Some s ->
       nth_error (calls (host s)) p = Some call ->
       call_state call = Resumed c ->
       (exists fn, In fn (sys_subscribed events)
                   /\ fn (call_value call) = Some c)
       /\ ((forall fn v, In fn (sys_subscribed events) ->
                         fn v = Some (Returned reply)) ->
           c = Returned reply).
Proof.
  split; [|split].
  - intros d events h value Hrun Hs.
    pose proof (host_inv_run _ _ _ Hrun) as Hinv.
    simpl. rewrite Hs. eexists. split; [reflexivity|]. simpl.
    split; [|split; [reflexivity|split]].
    + intros v p Hin Heq. apply In_requests in Hin.
      destruct (host_request_call _ _ _ _ Hinv Hin) as (call & Hc & _).
      assert (Hlt : p < List.length (calls h))
        by (apply nth_error_Some; congruence).
      lia.
    + rewrite nth_error_app2, Nat.sub_diag; [reflexivity|lia].
    + intros r. rewrite nth_error_app2, Nat.sub_diag by lia. simpl.
      eexists. split; [reflexivity|]. simpl.
      rewrite nth_error_update, Nat.eqb_refl, nth_error_app2, Nat.sub_diag
        by lia.
      simpl. destruct r; reflexivity.
  - intros d fn value c Hfn. simpl. unfold sys_step. simpl.
    rewrite Hfn. simpl. eexists. split; [reflexivity|]. simpl.
    destruct c; auto.
  - intros d events s p call c reply Hrun Hcall Hst.
    destruct (resumed_by_handler _ _ _ _ _ _ Hrun Hcall Hst)
      as (fn & Hin & Hfn).
    split; [eauto|]. intros Hall.
    specialize (Hall fn (call_value call) Hin). congruence.
Qed.

(** ** A request dispatched while nothing is subscribed *)

Lemma port_fresh_at (d : TData) (h : Host) (j : nat) (v : TSend)
    (p : MessagePort) :
  host_inv d h -> nth_error (posted h) j = Some (Send v p) ->
  ~ In p (map snd (requests (firstn j (posted h)))).
Proof.
  intros Hinv Hn Hin. pose proof (host_ports_nodup _ _ Hinv) as Hnd.
  destruct (nth_error_split _ _ Hn) as (l1 & l2 & Hl & Hlen).
  rewrite Hl in Hnd, Hin. rewrite <- Hlen in Hin.
  rewrite firstn_app, firstn_all, Nat.sub_diag in Hin. simpl in Hin.
  rewrite app_nil_r in Hin.
  rewrite requests_app, map_app in Hnd. simpl in Hnd.
  apply NoDup_remove_2 in Hnd. apply Hnd. apply in_or_app. now left.
Qed.

Lemma nth_error_firstn_lt {A : Type} (l : list A) (i j : nat) :
  i < j -> nth_error (firstn j l) i = nth_error l i.
Proof.
  revert i j. induction l as [|a l IH]; intros i j Hlt.
  - now rewrite firstn_nil.
  - destruct j; [lia|]. destruct i; simpl; [reflexivity|].
    apply IH. lia.
Qed.

Lemma later_port_differs (d : TData) (h : Host) (i j : nat) (v v' : TSend)
    (p p' : MessagePort) :
  host_inv d h -> i < j ->
  nth_error (posted h) i = Some (Send v p) ->
  nth_error (posted h) j = Some (Send v' p') -> p' <> p.
Proof.
  intros Hinv Hlt Hi Hj Heq. subst p'.
  apply (port_fresh_at _ _ _ _ _ Hinv Hj).
  apply (in_map snd _ (v, p)). apply In_requests.
  apply (nth_error_In _ i). now rewrite nth_error_firstn_lt.
Qed.

Lemma count_port_absent (p : MessagePort) (l : list Post) :
  (forall r, ~ In (ToPort p r) l) -> count_port p l = 0.
Proof.
  induction l as [|[m|q r] l IH]; simpl; intros H; auto.
  - apply IH. intros r Hin. apply (H r). now right.
  - destruct (Nat.eqb_spec q p) as [->|Hne].
    + exfalso. apply (H r). now left.
    + apply IH. intros r' Hin. apply (H r'). now right.
Qed.

Lemma scope_left (e : HostEvent) (h h' : Host) :
  hstep e h = Some h' -> scope h <> Provided -> scope h <> Acquiring ->
  scope h' <> Provided.
Proof.
  intros He Hp Ha. destruct e as [m|value|channel r|reason]; simpl in He.
  - destruct (scope h) eqn:Hs; try congruence; inversion He; subst;
      clear He; simpl; try rewrite Hs; try discriminate.
    apply scope_finally_resume.
  - apply hstep_call_send in He as [-> _]. assumption.
  - destruct (nth_error (calls h) channel) as [call|]; [|discriminate].
    destruct (call_state call); try discriminate.
    inversion He; subst; clear He; simpl. assumption.
  - apply hstep_exit in He as [[H _]|[H _]]; contradiction.
Qed.

Lemma Forall_update {A : Type} (P : A -> Prop) (l : list A) (i : nat)
    (x : A) :
  Forall P l -> P x -> Forall P (update i x l).
Proof.
  intros Hl Hx. revert i. induction Hl as [|a l Ha Hl IH]; intros [|i];
    simpl; auto.
Qed.

(** Calls are halted only when the scope of the resource ends. *)
Lemma no_halt_before_exit (d : TData) (events : list HostEvent) (h : Host) :
  hrun events (acquire d) = Some h ->
  scope h = Provided \/ scope h = Acquiring ->
  Forall (fun call => call_state call <> Halted) (calls h).
Proof.
  intros Hrun.
  refine (hrun_invariant
            (fun h => scope h = Provided \/ scope h = Acquiring ->
                      Forall (fun call => call_state call <> Halted)
                        (calls h)) _ events (acquire d) h _ Hrun).
  - intros e h0 h1 IH He Hs.
    destruct e as [m|value|channel r|reason]; simpl in He.
    + destruct (scope h0) eqn:Hs0; try destruct (type m =? "open")%string;
        inversion He; subst; clear He; simpl in *;
        try (apply IH; auto; fail);
        try (destruct Hs; discriminate).
      all: match goal with
           | Hx : scope (finally_resume ?r ?x) = _ \/ _ |- _ =>
               destruct (scope_finally_resume r x); destruct Hx;
               contradiction
           end.
    + apply hstep_call_send in He as [-> _]. simpl in *.
      apply Forall_app. split; [apply IH; auto|].
      constructor; [simpl; discriminate|constructor].
    + destruct (nth_error (calls h0) channel) as [call|]; [|discriminate].
      destruct (call_state call); try discriminate.
      inversion He; subst; clear He; simpl in *.
      apply Forall_update; [apply IH; auto|simpl; discriminate].
    + apply hstep_exit in He as [[_ ->]|[_ ->]];
        [destruct Hs; discriminate|].
      destruct (scope_finally_resume reason
                  (mkHost (data h0) Provided (h_outcome h0)
                     (onclose_attached h0) (posted h0 ++ [Close])
                     (map halt (calls h0)))) as [H1 H2].
      destruct Hs; contradiction.
  - intros _. constructor.
Qed.

Lemma dispatch_unsubscribed (w : Worker) (value : TSend)
    (response : MessagePort) :
  sent w = [] -> dispatch (Send value response) w = w.
Proof.
  intros Hs. destruct w. simpl in *. subst. reflexivity.
Qed.

Lemma exit_scope (reason : ExitReason) (h h' : Host) :
  hstep (Exit reason) h = Some h' -> scope h' <> Provided.
Proof.
  intros He. apply hstep_exit in He as [[_ ->]|[_ ->]];
    [discriminate|apply scope_finally_resume].
Qed.

Lemma unanswered_step (d : TData) (k : nat) (value : TSend)
    (response : MessagePort) (e : SystemEvent) (s s' : System) :
  unanswered d k value response s -> sys_step e s = Some s' ->
  unanswered d k value response s'.
Proof.
  intros (Hinv & Hk & Hlt & (reqs & fns & Htr & Hnin)
          & (call & Hcall & Hval & Hst)) He.
  assert (Hsilent : forall r, ~ In (ToPort response r) (posts (worker s))).
  { intros r Hin. destruct Htr as (_ & _ & Hp).
    destruct (Hp _ _ Hin) as (v & _ & _ & Hv & _).
    apply Hnin. apply (in_map snd _ _ Hv). }
  assert (Hhost : forall he h' n,
             hstep he (host s) = Some h' ->
             (forall r, he <> Reply response r) ->
             unanswered d k value response
               (mkSystem h' (worker s) (dispatched s) n)).
  { intros he h' n Hhe Hreply. unfold unanswered. simpl.
    split; [eapply host_inv_step; eauto|].
    split.
    { destruct (hstep_posted _ _ _ Hhe) as (l & ->).
      rewrite nth_error_app1; [assumption|].
      apply nth_error_Some. congruence. }
    split; [assumption|]. split; [eauto|].
    destruct (call_step _ _ _ _ _ Hhe Hcall)
      as (call' & Hcall' & Hval' & Hst').
    exists call'. split; [assumption|]. split; [congruence|].
    destruct Hst' as [Hsame|[(r & ->)|(reason & -> & Hhalt)]].
    - rewrite Hsame. destruct Hst as [Hst|[Hst Hsc]]; [now left|right].
      split; [assumption|]. apply (scope_left _ _ _ Hhe Hsc).
      intros Hacq. destruct Hinv as (_ & _ & _ & Hsc').
      rewrite Hacq in Hsc'. destruct Hsc' as [_ Hnil].
      rewrite Hnil in Hcall. destruct response; discriminate.
    - exfalso. now apply (Hreply r).
    - right. split; [assumption|]. eapply exit_scope; eauto. }
  assert (Hworker : forall we w' n,
             step we (worker s) = Some w' ->
             (forall v, we <> Control (Send v response)) ->
             k < n ->
             unanswered d k value response
               (mkSystem (host s) w' n (observed s))).
  { intros we w' n Hwe Hne Hn. unfold unanswered. simpl.
    split; [assumption|]. split; [assumption|]. split; [assumption|].
    split; [|eauto].
    exists (reqs ++ requests (controls [we])), (fns ++ subscribed [we]).
    split; [exact (traced_step _ _ _ _ _ Htr Hwe)|].
    rewrite map_app. intros Hin. apply in_app_or in Hin.
    destruct Hin as [Hin|Hin]; [contradiction|].
    destruct we as [[d0|v p|]|b fn|i|i|b c|]; simpl in Hin; try contradiction.
    destruct Hin as [->|[]]. now apply (Hne v). }
  destruct e as [v|reason| | |channel|le]; unfold sys_step in He;
    cbv beta iota in He.
  - destruct (hstep (CallSend v) (host s)) as [h'|] eqn:Hhe; [|discriminate].
    inversion He; subst; clear He. apply (Hhost _ _ _ Hhe). discriminate.
  - destruct (hstep (Exit reason) (host s)) as [h'|] eqn:Hhe;
      [|discriminate].
    inversion He; subst; clear He. apply (Hhost _ _ _ Hhe). discriminate.
  - destruct (nth_error (posted (host s)) (dispatched s)) as [ctl|] eqn:Hn;
      [|discriminate].
    destruct (step (Control ctl) (worker s)) as [w'|] eqn:Hwe;
      [|discriminate].
    inversion He; subst; clear He. apply (Hworker _ _ _ Hwe); [|lia].
    intros v Heq. inversion Heq. subst.
    now apply (later_port_differs _ _ _ _ _ _ _ _ Hinv Hlt Hk Hn).
  - destruct (nth_error (lifecycle (posts (worker s))) (observed s))
      as [m|]; [|discriminate].
    destruct (hstep (Message m) (host s)) as [h'|] eqn:Hhe; [|discriminate].
    inversion He; subst; clear He. apply (Hhost _ _ _ Hhe). discriminate.
  - destruct (first_response channel (posts (worker s))) as [r|] eqn:Hr;
      [|discriminate].
    destruct (hstep (Reply channel r) (host s)) as [h'|] eqn:Hhe;
      [|discriminate].
    inversion He; subst; clear He. apply (Hhost _ _ _ Hhe).
    intros r' Heq. inversion Heq. subst.
    apply (Hsilent r'). now apply first_response_In.
  - destruct le as [ctl|b fn|i|i|b c0|]; try discriminate.
    all: match type of He with
         | match step ?we _ with _ => _ end = _ =>
             destruct (step we (worker s)) as [w'|] eqn:Hwe;
             [|discriminate];
             inversion He; subst; clear He;
             apply (Hworker we w' _ Hwe); [discriminate|assumption]
         end.
Qed.

(** C10: when the dispatch loop takes a [send] message while no [forEach]
    is subscribed, the worker is left exactly as it was; from then on,
    whatever happens on either side, no response is ever posted on the port
    of that message, and the host's call for it is never resumed: it stays
    suspended as long as the resource is provided, and is halted when the
    scope of the resource ends. *)
Theorem unsubscribed_send_is_dropped (d : TData)
    (events : list SystemEvent) (s : System) (value : TSend)
    (response : MessagePort) :
  sys_run events (start d) = Some s ->
  nth_error (posted (host s)) (dispatched s) = Some (Send value response) ->
  finalized (worker s) = false ->
  sent (worker s) = [] ->
  exists s1,
    sys_step Deliver s = Some s1
    /\ worker s1 = worker s
    /\ host s1 = host s
    /\ forall later s2,
         sys_run later s1 = Some s2 ->
         count_port response (posts (worker s2)) = 0
         /\ exists call,
              nth_error (calls (host s2)) response = Some call
              /\ call_value call = value
              /\ (call_state call = Pending \/ call_state call = Halted)
              /\ (scope (host s2) = Provided -> call_state call = Pending).
Proof.
  intros Hrun Hn Hf Hsent.
  destruct (system_components _ _ _ Hrun)
    as ((hevents & Hh) & (wevents & Hw & Hc & _) & _).
  pose proof (host_inv_run _ _ _ Hh) as Hinv.
  pose proof (traced_run _ _ Hw) as Htr. rewrite Hc in Htr.
  pose proof (port_fresh_at _ _ _ _ _ Hinv Hn) as Hfresh.
  unfold sys_step. rewrite Hn. unfold step. rewrite Hf.
  rewrite (dispatch_unsubscribed _ _ _ Hsent).
  eexists. split; [reflexivity|]. simpl. split; [reflexivity|].
  split; [reflexivity|].
  assert (Hstart : unanswered d (dispatched s) value response
                     (mkSystem (host s) (worker s) (S (dispatched s))
                        (observed s))).
  { unfold unanswered. simpl. split; [assumption|]. split; [assumption|].
    split; [lia|]. split; [eauto|].
    assert (Hin : In (value, response) (requests (posted (host s)))).
    { apply In_requests. eapply nth_error_In; eauto. }
    destruct (host_request_call _ _ _ _ Hinv Hin) as (call & Hcall & Hval).
    exists call. split; [assumption|]. split; [assumption|].
    destruct (call_state call) as [|c|] eqn:Hst.
    - now left.
    - exfalso.
      destruct (answered_run _ _ _ Hrun _ _ _ Hcall Hst) as (r & Hr & _).
      destruct Htr as (_ & _ & Hp).
      destruct (Hp _ _ Hr) as (v & _ & _ & Hv & _).
      apply Hfresh. apply (in_map snd _ _ Hv).
    - right. split; [reflexivity|]. intros Hsc.
      pose proof (no_halt_before_exit _ _ _ Hh (or_introl Hsc)) as Hall.
      rewrite Forall_forall in Hall.
      apply (Hall call (nth_error_In _ _ Hcall)). assumption. }
  intros later s2 Hlater.
  assert (Hend : unanswered d (dispatched s) value response s2).
  { revert Hlater. apply sys_run_invariant
      with (P := unanswered d (dispatched s) value response);
      [|exact Hstart].
    intros e s0 s0'. apply unanswered_step. }
  destruct Hend as (_ & _ & _ & (reqs & fns & (_ & _ & Hp) & Hnin)
                    & (call & Hcall & Hval & Hst)).
  split.
  - apply count_port_absent. intros r Hin.
    destruct (Hp _ _ Hin) as (v & _ & _ & Hv & _).
    apply Hnin. apply (in_map snd _ _ Hv).
  - exists call. split; [assumption|]. split; [assumption|]. split.
    + destruct Hst as [Hst|[Hst _]]; auto.
    + intros Hsc. destruct Hst as [Hst|[_ Hne]]; [assumption|contradiction].
Qed.

(** * Further properties of the host *)

Lemma outcome_finally_resume (reason : ExitReason) (h : Host) :
  h_outcome (finally_resume reason h) = h_outcome h.
Proof.
  unfold finally_resume. now destruct (settled _) as [[]|].
Qed.

Lemma hstep_outcome (e : HostEvent) (h h' : Host) :
  hstep e h = Some h' ->
  h_outcome h' = match e with
                 | Message m => if onclose_attached h
                                then onclose m (h_outcome h)
                                else h_outcome h
                 | _ => h_outcome h
                 end.
Proof.
  intros He. destruct e as [m|value|channel r|reason]; simpl in He.
  - destruct (scope h); try destruct (type m =? "open")%string;
      inversion He; subst; clear He;
      rewrite ?outcome_finally_resume; reflexivity.
  - now apply hstep_call_send in He as [-> _].
  - destruct (nth_error (calls h) channel) as [call|]; [|discriminate].
    destruct (call_state call); try discriminate. now inversion He.
  - apply hstep_exit in He as [[_ ->]|[_ ->]]; [reflexivity|].
    now rewrite outcome_finally_resume.
Qed.

Lemma onclose_first (m : LifecycleMessage) (o : Operation TReturn) :
  onclose m o = match o with
                | Some c => Some c
                | None => first_close [Message m]
                end.
Proof.
  unfold onclose. simpl. destruct (type m =? "close")%string.
  - destruct (result m) as [[v|e]|]; destruct o; reflexivity.
  - destruct o; reflexivity.
Qed.

Lemma detached_finally_resume (reason : ExitReason) (h : Host) :
  onclose_attached (finally_resume reason h) = false ->
  onclose_attached h = false \/ h_outcome h <> None.
Proof.
  unfold finally_resume.
  destruct (h_outcome h) as [[v|e]|]; simpl; auto; right; discriminate.
Qed.

Lemma detached_settled_step (e : HostEvent) (h h' : Host) :
  (onclose_attached h = false -> h_outcome h <> None) ->
  hstep e h = Some h' ->
  onclose_attached h' = false -> h_outcome h' <> None.
Proof.
  intros Hinv He Hdet.
  destruct e as [m|value|channel r|reason]; simpl in He.
  - destruct (scope h) eqn:Hs; try destruct (type m =? "open")%string;
      inversion He; subst; clear He.
    all: try (rewrite outcome_finally_resume;
              apply detached_finally_resume in Hdet; simpl in *;
              destruct Hdet as [Ha|Ho]; [rewrite Ha; auto|exact Ho]).
    all: simpl in *; rewrite Hdet; auto.
  - apply hstep_call_send in He as [-> _]. simpl in *. auto.
  - destruct (nth_error (calls h) channel) as [call|]; [|discriminate].
    destruct (call_state call); try discriminate. inversion He; subst.
    simpl in *. auto.
  - apply hstep_exit in He as [[_ ->]|[_ ->]]; [simpl in *; auto|].
    rewrite outcome_finally_resume.
    apply detached_finally_resume in Hdet. simpl in *.
    destruct Hdet as [Ha|Ho]; auto.
Qed.

Lemma hrun_outcome (events : list HostEvent) :
  forall h h',
    (onclose_attached h = false -> h_outcome h <> None) ->
    hrun events h = Some h' ->
    h_outcome h' = match h_outcome h with
                   | Some c => Some c
                   | None => first_close events
                   end.
Proof.
  induction events as [|e rest IH]; simpl; intros h h' Hinv Hrun.
  - inversion Hrun. subst. now destruct (h_outcome h').
  - destruct (hstep e h) as [h1|] eqn:He; [|discriminate].
    rewrite (IH _ _ (detached_settled_step _ _ _ Hinv He) Hrun).
    rewrite (hstep_outcome _ _ _ He).
    destruct e as [m|value|channel r|reason];
      try (destruct (h_outcome h); reflexivity).
    destruct (onclose_attached h) eqn:Ha.
    + rewrite onclose_first. simpl.
      destruct (h_outcome h); [reflexivity|].
      destruct (type m =? "close")%string; [|reflexivity].
      destruct (result m); reflexivity.
    + destruct (h_outcome h); [reflexivity|]. now specialize (Hinv eq_refl).
Qed.

(** X1: the outcome that the handle of a host gives is decided by the
    first message of type "close" that carries a result: resolved with the
    value of an [Ok], rejected with the error of an [Err]; it is pending
    until such a message arrives and no later message changes it. *)
Theorem host_outcome_first_close (d : TData) (events : list HostEvent)
    (h : Host) :
  hrun events (acquire d) = Some h -> h_outcome h = first_close events.
Proof.
  intros Hrun.
  assert (Hinit : onclose_attached (acquire d) = false ->
                  h_outcome (acquire d) <> None) by (simpl; discriminate).
  rewrite (hrun_outcome _ _ _ Hinit Hrun). reflexivity.
Qed.

Lemma sends_of_snoc (l : list SendCall) (value : TSend) (st : CallState) :
  sends_of (l ++ [mkCall value st])
  = sends_of l ++ [Send value (List.length l)].
Proof.
  unfold sends_of. rewrite map_app. simpl.
  rewrite <- (length_map call_value l) at 1.
  replace (List.length (l ++ [mkCall value st]))
    with (List.length (map call_value l ++ [value]))
    by (rewrite !length_app, length_map; reflexivity).
  rewrite combine_seq_snoc, map_app, length_map. reflexivity.
Qed.

Lemma sends_of_update (l : list SendCall) (i : nat) (call : SendCall)
    (st : CallState) :
  nth_error l i = Some call ->
  sends_of (update i (mkCall (call_value call) st) l) = sends_of l.
Proof.
  intros H. unfold sends_of.
  now rewrite (map_call_value_update _ _ _ _ H), length_update.
Qed.

Lemma sends_of_halt (l : list SendCall) :
  sends_of (map halt l) = sends_of l.
Proof.
  unfold sends_of. now rewrite map_call_value_halt, length_map.
Qed.

Lemma filter_snoc {A : Type} (f : A -> bool) (l : list A) (x : A) :
  filter f (l ++ [x]) = if f x then filter f l ++ [x] else filter f l.
Proof.
  rewrite filter_app. simpl. destruct (f x); [reflexivity|].
  apply app_nil_r.
Qed.

Lemma control_log_finally_resume (d : TData) (reason : ExitReason)
    (h : Host) :
  without_close (posted h) = Init d :: sends_of (calls h) ->
  List.length (filter is_close (posted h)) = 1 ->
  control_log d (finally_resume reason h).
Proof.
  intros Hw Hc. unfold control_log, handle_made, exited, finally_resume.
  destruct (settled (T:=TReturn) _) as [[captured|error]|]; simpl; auto.
Qed.

Lemma control_log_step (d : TData) (e : HostEvent) (h h' : Host) :
  host_inv d h -> control_log d h -> hstep e h = Some h' ->
  control_log d h'.
Proof.
  intros (Hd & _ & _ & Hsc) [Hw Hc] He.
  destruct e as [m|value|channel r|reason].
  - simpl in He. unfold handle_made, exited in Hw, Hc.
    destruct (scope h) eqn:Hs;
      try (inversion He; subst; clear He;
           unfold control_log, handle_made, exited; simpl; rewrite ?Hs;
           auto; fail).
    + destruct Hsc as [Hp Hcalls].
      destruct (type m =? "open")%string; inversion He; subst; clear He;
        unfold control_log, handle_made, exited, without_close; simpl;
        rewrite ?Hp, ?Hcalls; auto.
    + inversion He; subst; clear He.
      now apply control_log_finally_resume.
  - apply hstep_call_send in He as [-> Hmade].
    unfold control_log, handle_made, exited, without_close in *. simpl.
    rewrite !filter_snoc. simpl. rewrite Hw, Hc.
    destruct (scope h); try discriminate; now rewrite sends_of_snoc.
  - simpl in He.
    destruct (nth_error (calls h) channel) as [call|] eqn:Hcall;
      [|discriminate].
    destruct (call_state call); try discriminate.
    inversion He; subst; clear He.
    unfold control_log, handle_made, exited in *. simpl.
    now rewrite (sends_of_update _ _ _ _ Hcall).
  - apply hstep_exit in He as [[Hs ->]|[Hs ->]].
    + unfold control_log, handle_made, exited in *. simpl.
      now rewrite Hs in Hw, Hc.
    + unfold handle_made, exited in Hw, Hc. rewrite Hs in Hw, Hc.
      apply control_log_finally_resume; simpl.
      * unfold without_close in *. rewrite filter_snoc. simpl.
        now rewrite sends_of_halt.
      * rewrite filter_snoc. simpl. rewrite length_app, Hc. reflexivity.
Qed.

Lemma filter_none_left {A : Type} (f : A -> bool) (l : list A) :
  List.length (filter f l) = 0 -> filter (fun x => negb (f x)) l = l.
Proof.
  induction l as [|a l IH]; simpl; [reflexivity|].
  destruct (f a); simpl; [discriminate|]. intros H. now rewrite IH.
Qed.

(** X2: the control messages a host has posted are tied to its state.
    Nothing is posted until the handshake has succeeded; from then on the
    log without its [close] is [init] with the configured data followed by
    one [send] per call of the handle, in call order, each with the value
    of its call and a channel of its own.  [close] is in the log exactly
    once from the moment the scope of the provided resource ends, and not
    before: while the resource is provided the log is [init] and the
    [send]s alone.  (A call made on the handle after its scope has ended
    is still posted, after [close].) *)
Theorem control_order (d : TData) (events : list HostEvent) (h : Host) :
  hrun events (acquire d) = Some h ->
  without_close (posted h)
  = match scope h with
    | Acquiring | Dropped _ | Rejected _ => []
    | _ => Init d :: sends_of (calls h)
    end
  /\ List.length (filter is_close (posted h))
     = match scope h with
       | Releasing _ | Aborted _ | Released _ _ => 1
       | _ => 0
       end
  /\ (scope h = Provided -> posted h = Init d :: sends_of (calls h)).
Proof.
  intros Hrun.
  assert (H : host_inv d h /\ control_log d h).
  { refine (hrun_invariant
              (fun h => host_inv d h /\ control_log d h)
              _ events (acquire d) h _ Hrun).
    - intros e h0 h1 [Hinv Hlog] He. split.
      + eapply host_inv_step; eauto.
      + eapply control_log_step; eauto.
    - split; [|split; reflexivity]. unfold host_inv. simpl. auto. }
  destruct H as [_ [Hw Hc]]. unfold handle_made, exited in Hw, Hc.
  split; [|split].
  - rewrite Hw. now destruct (scope h).
  - rewrite Hc. now destruct (scope h).
  - intros Hs. rewrite Hs in Hw, Hc. unfold without_close in Hw.
    now rewrite (filter_none_left _ _ Hc) in Hw.
Qed.

Lemma settled_call_step (e : HostEvent) (h h' : Host) (p : MessagePort)
    (call : SendCall) :
  hstep e h = Some h' -> nth_error (calls h) p = Some call ->
  call_state call <> Pending -> nth_error (calls h') p = Some call.
Proof.
  intros He Hc Hst. destruct e as [m|value|channel r|reason]; simpl in He.
  - destruct (scope h); try destruct (type m =? "open")%string;
      inversion He; subst; clear He; rewrite ?calls_finally_resume; simpl;
      assumption.
  - apply hstep_call_send in He as [-> _].
    simpl. rewrite nth_error_app1; [assumption|].
    apply nth_error_Some. congruence.
  - destruct (nth_error (calls h) channel) as [call0|] eqn:Hc0;
      [|discriminate].
    destruct (call_state call0) eqn:Hst0; try discriminate.
    inversion He; subst; clear He. simpl. rewrite nth_error_update.
    destruct (Nat.eqb_spec p channel) as [->|Hne]; [|assumption].
    congruence.
  - apply hstep_exit in He as [[_ ->]|[_ ->]]; [assumption|].
    rewrite calls_finally_resume. simpl. rewrite nth_error_map, Hc. simpl.
    f_equal. unfold halt. destruct (call_state call); congruence.
Qed.

(** X3: the way a call of [send] has ended is final: once it has been
    resumed with a result, or halted, nothing that happens to the host
    afterwards changes it, and a further message on its channel is not
    taken. *)
Theorem call_result_final (events : list HostEvent) (h h' : Host)
    (p : MessagePort) (call : SendCall) :
  hrun events h = Some h' ->
  nth_error (calls h) p = Some call ->
  call_state call <> Pending ->
  nth_error (calls h') p = Some call
  /\ forall r, hstep (Reply p r) h' = None.
Proof.
  intros Hrun Hc Hst.
  assert (Hc' : nth_error (calls h') p = Some call).
  { revert h Hrun Hc. induction events as [|e rest IH]; simpl;
      intros h Hrun Hc.
    - inversion Hrun. now subst.
    - destruct (hstep e h) as [h1|] eqn:He; [|discriminate].
      apply (IH h1 Hrun). eapply settled_call_step; eauto. }
  split; [assumption|]. intros r. simpl. rewrite Hc'.
  destruct (call_state call); congruence.
Qed.

(** * Further properties of the worker *)

Lemma run_sends (reqs : list (TSend * MessagePort)) :
  forall w, finalized w = false ->
  exists w',
    run (send_events reqs) w = Some w'
    /\ sent w' = map (fun sub => mkSubscription (sub_owner sub) (sub_fn sub)
                                   (sub_queue sub ++ reqs)) (sent w)
    /\ handlers w' = handlers w /\ posts w' = posts w
    /\ outcome w' = outcome w /\ bodies w' = bodies w
    /\ finalized w' = false.
Proof.
  induction reqs as [|[v p] reqs IH]; intros w Hf.
  - exists w. split; [reflexivity|]. split; [|auto].
    rewrite <- (map_id (sent w)) at 1. apply map_ext.
    intros [owner fn queue]. simpl. now rewrite app_nil_r.
  - destruct (IH (dispatch (Send v p) w) Hf)
      as (w' & Hrun & Hs & Hh & Hp & Ho & Hb & Hf').
    exists w'. split.
    { cbn [send_events map run fst snd]. unfold step at 1. rewrite Hf.
      exact Hrun. }
    split; [|auto]. rewrite Hs. cbn [dispatch sent]. rewrite map_map.
    apply map_ext. intros sub. simpl. now rewrite <- app_assoc.
Qed.

Lemma run_iterates (k : nat) :
  forall w s sub,
    finalized w = false -> nth_error (sent w) s = Some sub ->
    k <= List.length (sub_queue sub) ->
    exists w',
      run (repeat (Iterate s) k) w = Some w'
      /\ handlers w' = handlers w
                         ++ map (handler_of sub) (firstn k (sub_queue sub))
      /\ nth_error (sent w') s
         = Some (mkSubscription (sub_owner sub) (sub_fn sub)
                   (skipn k (sub_queue sub)))
      /\ posts w' = posts w /\ outcome w' = outcome w
      /\ finalized w' = false.
Proof.
  induction k as [|k IH]; intros w s sub Hf Hs Hk.
  - exists w. split; [reflexivity|]. simpl. rewrite app_nil_r.
    split; [reflexivity|]. split; [|auto]. rewrite Hs. now destruct sub.
  - destruct (sub_queue sub) as [|[v p] rest] eqn:Hq;
      [simpl in Hk; inversion Hk|].
    set (sub1 := mkSubscription (sub_owner sub) (sub_fn sub) rest).
    set (w1 := mkWorker (outcome w) (bodies w) (update s sub1 (sent w))
                 (handlers w ++ [handler_of sub (v, p)])
                 false (posts w)).
    assert (H1 : step (Iterate s) w = Some w1).
    { unfold step. rewrite Hf, Hs, Hq. reflexivity. }
    assert (Hs1 : nth_error (sent w1) s = Some sub1).
    { unfold w1. cbn [sent]. rewrite nth_error_update, Nat.eqb_refl, Hs.
      reflexivity. }
    assert (Hk1 : k <= List.length (sub_queue sub1)).
    { unfold sub1. cbn [sub_queue]. simpl in Hk. now apply le_S_n. }
    destruct (IH w1 s sub1 eq_refl Hs1 Hk1)
      as (w' & Hrun & Hh & Hs' & Hp & Ho & Hf').
    exists w'. split.
    { cbn [repeat run]. rewrite H1. exact Hrun. }
    split.
    { rewrite Hh. unfold w1. cbn [handlers]. rewrite <- app_assoc.
      reflexivity. }
    split; [exact Hs'|]. auto.
Qed.

(** X5: a [forEach] of the body is handed the requests dispatched while it
    is subscribed in dispatch order, after those that already wait for it:
    after the dispatch of a list of requests and [k] iterations of its
    loop, the handler tasks started are those of the first [k] waiting
    requests, in order, each running the handler on the value of its
    request and answering on the port of its request, and the other
    requests wait in order.  Nothing is posted meanwhile, and a loop with
    nothing waiting does not iterate. *)
Theorem requests_in_order (w : Worker) (s : nat) (sub : Subscription)
    (reqs : list (TSend * MessagePort)) (k : nat) :
  finalized w = false -> nth_error (sent w) s = Some sub ->
  k <= List.length (sub_queue sub ++ reqs) ->
  exists w',
    run (send_events reqs ++ repeat (Iterate s) k) w = Some w'
    /\ handlers w' = handlers w
                       ++ map (handler_of sub)
                            (firstn k (sub_queue sub ++ reqs))
    /\ nth_error (sent w') s
       = Some (mkSubscription (sub_owner sub) (sub_fn sub)
                 (skipn k (sub_queue sub ++ reqs)))
    /\ posts w' = posts w
    /\ outcome w' = outcome w
    /\ (k = List.length (sub_queue sub ++ reqs) ->
        step (Iterate s) w' = None).
Proof.
  intros Hf Hs Hk.
  destruct (run_sends reqs w Hf)
    as (w1 & Hrun1 & Hs1 & Hh1 & Hp1 & Ho1 & _ & Hf1).
  set (sub1 := mkSubscription (sub_owner sub) (sub_fn sub)
                 (sub_queue sub ++ reqs)).
  assert (Hsub1 : nth_error (sent w1) s = Some sub1).
  { rewrite Hs1, nth_error_map, Hs. reflexivity. }
  destruct (run_iterates k w1 s sub1 Hf1 Hsub1 Hk)
    as (w' & Hrun & Hh & Hs' & Hp & Ho & Hf').
  exists w'. split; [now rewrite run_app, Hrun1|].
  split; [now rewrite Hh, Hh1|]. split; [exact Hs'|].
  split; [congruence|]. split; [congruence|].
  intros ->. unfold step. rewrite Hf', Hs'. cbn [sub_queue sub1].
  now rewrite skipn_all.
Qed.

Lemma nth_error_snoc_old {A : Type} (l : list A) (x y : A) (i : nat) :
  nth_error l i = Some y -> nth_error (l ++ [x]) i = Some y.
Proof.
  intros H. rewrite nth_error_app1; [assumption|].
  apply nth_error_Some. congruence.
Qed.

Lemma owned_step (e : Event) (w w' : Worker) :
  owned w -> step e w = Some w' -> owned w'.
Proof.
  intros [Hs Hh] He. unfold step in He.
  destruct (finalized w); [discriminate|].
  destruct e as [[d|v p|]|b fn|s|h|b c|]; simpl in *; break_match He;
    inversion He; subst; clear He; unfold owned; simpl;
    (split; [|try exact Hh]); try exact Hs.
  - (* init *)
    intros sub Hin. destruct (Hs sub Hin) as (body & Hb & Hr).
    exists body. split; [now apply nth_error_snoc_old|assumption].
  - intros task Hin. destruct (Hh task Hin) as (body & Hb & Hr).
    exists body. split; [now apply nth_error_snoc_old|assumption].
  - (* send *)
    intros sub Hin. apply in_map_iff in Hin.
    destruct Hin as (sub0 & <- & Hin0). simpl. now apply Hs.
  - (* forEach *)
    intros sub Hin. apply in_app_or in Hin.
    destruct Hin as [Hin|[<-|[]]]; [now apply Hs|]. simpl. eauto.
  - (* iterate *)
    intros sub Hin. apply In_update in Hin.
    destruct Hin as [->|Hin]; [|now apply Hs]. simpl.
    match goal with
    | Hn : nth_error (sent w) s = Some ?x |- _ =>
        exact (Hs x (nth_error_In _ _ Hn))
    end.
  - intros task Hin. apply in_app_or in Hin.
    destruct Hin as [Hin|[<-|[]]]; [now apply Hh|]. simpl.
    match goal with
    | Hn : nth_error (sent w) s = Some ?x |- _ =>
        exact (Hs x (nth_error_In _ _ Hn))
    end.
  - (* answer *)
    intros task Hin. apply Hh. eapply In_drop; eauto.
  - (* body end *)
    intros sub Hin. apply filter_In in Hin. destruct Hin as [Hin Hne].
    destruct (Hs sub Hin) as (body & Hb & Hr). exists body.
    split; [|assumption]. rewrite nth_error_update.
    unfold owned_by in Hne. apply negb_true_iff in Hne. now rewrite Hne.
  - intros task Hin. apply filter_In in Hin. destruct Hin as [Hin Hne].
    destruct (Hh task Hin) as (body & Hb & Hr). exists body.
    split; [|assumption]. rewrite nth_error_update.
    unfold owned_by in Hne. apply negb_true_iff in Hne. now rewrite Hne.
  - (* finish *)
    intros sub [].
  - intros task [].
Qed.

Lemma Forall_stop (l : list BodyTask) :
  Forall (fun body => body_running body = false) (map stop l).
Proof.
  induction l; simpl; constructor; auto.
Qed.

(** X6: no [forEach] and no request handler outlives the body task that
    started it: every subscription and every running handler belongs to a
    body task that is still running, and a finalized worker has no
    subscription, no handler and no running body left. *)
Theorem tasks_owned (events : list Event) (w : Worker) :
  run events boot = Some w ->
  owned w
  /\ (finalized w = true ->
      sent w = [] /\ handlers w = []
      /\ Forall (fun body => body_running body = false) (bodies w)).
Proof.
  apply run_invariant
    with (P := fun w =>
                 owned w
                 /\ (finalized w = true ->
                     sent w = [] /\ handlers w = []
                     /\ Forall (fun body => body_running body = false)
                          (bodies w))).
  - intros e w0 w1 [Ho _] He. split; [eapply owned_step; eauto|].
    intros Hf. unfold step in He.
    destruct (finalized w0) eqn:Hf0; [discriminate|].
    destruct e as [[d|v p|]|b fn|s|h|b c|]; simpl in *; break_match He;
      inversion He; subst; clear He; simpl in *; try congruence.
    repeat split; auto. apply Forall_stop.
  - split; [|discriminate]. split; intros x [].
Qed.

(** * Further properties of the connected system *)

Lemma system_lifecycle (d : TData) (events : list SystemEvent)
    (s : System) :
  sys_run events (start d) = Some s ->
  lifecycle (posts (worker s)) =
  open_message :: match outcome (worker s), finalized (worker s) with
                  | Some (Returned r), true => [close_message r]
                  | _, _ => []
                  end.
Proof.
  intros Hrun.
  destruct (system_components _ _ _ Hrun) as (_ & (wevents & Hw & _) & _).
  apply lifecycle_shape. eapply posts_shape_run; eauto.
Qed.

Lemma exit_result (reason : ExitReason) (h h' : Host) :
  hstep (Exit reason) h = Some h' -> scope h = Provided ->
  h_outcome h' = h_outcome h
  /\ scope h' = match h_outcome h with
                | None => Releasing reason
                | Some c => Released reason (captured_of c)
                end
  /\ onclose_attached h' = match h_outcome h with
                           | None => onclose_attached h
                           | Some _ => false
                           end
  /\ posted h' = posted h ++ [Close].
Proof.
  intros He Hs. apply hstep_exit in He as [[Ha _]|[_ ->]]; [congruence|].
  unfold finally_resume. simpl.
  destruct (h_outcome h) as [[v|e]|]; simpl; auto.
Qed.

Lemma call_reply_scope (e : HostEvent) (h h' : Host) :
  hstep e h = Some h' ->
  (forall m, e <> Message m) -> (forall reason, e <> Exit reason) ->
  scope h' = scope h /\ h_outcome h' = h_outcome h.
Proof.
  intros He Hm Hx. destruct e as [m|value|channel r|reason]; simpl in He.
  - now destruct (Hm m).
  - now apply hstep_call_send in He as [-> _].
  - destruct (nth_error (calls h) channel) as [call|]; [|discriminate].
    destruct (call_state call); try discriminate. now inversion He.
  - now destruct (Hx reason).
Qed.

Lemma message_result (m : LifecycleMessage) (h h' : Host) :
  hstep (Message m) h = Some h' -> onclose_attached h = true ->
  h_outcome h' = onclose m (h_outcome h)
  /\ scope h' = match scope h with
                | Acquiring =>
                    if (type m =? "open")%string then Provided
                    else Rejected (assertion_error (type m))
                | Releasing reason =>
                    match onclose m (h_outcome h) with
                    | None => Releasing reason
                    | Some c => Released reason (captured_of c)
                    end
                | other => other
                end
  /\ posted h' = match scope h with
                 | Acquiring =>
                     if (type m =? "open")%string
                     then posted h ++ [Init (data h)] else posted h
                 | _ => posted h
                 end.
Proof.
  intros He Ha. simpl in He. rewrite Ha in He.
  destruct (scope h) eqn:Hs; try destruct (type m =? "open")%string;
    inversion He; subst; clear He; simpl; auto.
  all: unfold finally_resume; simpl;
    destruct (onclose m (h_outcome h)) as [[v|e]|]; simpl; auto.
Qed.

Lemma in_sync_step (d : TData) (events : list SystemEvent) (e : SystemEvent)
    (s s' : System) :
  sys_run events (start d) = Some s -> in_sync s ->
  sys_step e s = Some s' -> in_sync s'.
Proof.
  intros Hrun Hsync He.
  pose proof (system_lifecycle _ _ _ Hrun) as Hlife.
  destruct (system_components _ _ _ Hrun) as ((hevents & Hh) & _ & _).
  pose proof (host_inv_run _ _ _ Hh) as (_ & _ & Hatt & _).
  unfold in_sync in *.
  destruct e as [value|reason| | |channel|le]; unfold sys_step in He;
    cbv beta iota in He.
  - (* a call of send *)
    destruct (hstep (CallSend value) (host s)) as [h'|] eqn:Hhe;
      [|discriminate].
    inversion He; subst; clear He. simpl.
    destruct (call_reply_scope _ _ _ Hhe) as [Hsc Ho]; try discriminate.
    now rewrite Hsc, Ho.
  - (* the scope ends *)
    destruct (hstep (Exit reason) (host s)) as [h'|] eqn:Hhe;
      [|discriminate].
    inversion He; subst; clear He. simpl.
    destruct (hstep_exit _ _ _ Hhe) as [[Hacq ->]|[Hp _]].
    { simpl. destruct (observed s) as [|[|n]].
      - destruct Hsync as [Hnone _]. eauto.
      - destruct Hsync as [_ [H|[(r & H)|(r & H)]]]; congruence.
      - destruct Hsync
          as (_ & _ & r & _ & _ & [H|[(r' & H)|(r' & H)]]); congruence. }
    destruct (exit_result _ _ _ Hhe Hp) as (Ho & Hsc & _).
    rewrite Ho, Hsc. destruct (observed s) as [|[|n]].
    + destruct Hsync as [_ [H|(r & H)]]; congruence.
    + destruct Hsync as [Hnone _]. rewrite Hnone. eauto.
    + destruct Hsync as (Hn & Hf & r & Hw & Hhost & _).
      split; [assumption|]. split; [assumption|]. exists r.
      rewrite Hhost. split; [assumption|]. split; [reflexivity|].
      right. left. eauto.
  - (* a control message is dispatched *)
    destruct (nth_error (posted (host s)) (dispatched s)) as [ctl|];
      [|discriminate].
    destruct (step (Control ctl) (worker s)) as [w'|] eqn:Hwe;
      [|discriminate].
    inversion He; subst; clear He. simpl.
    destruct (observed s) as [|[|n]]; try assumption.
    destruct Hsync as (_ & Hf & _).
    rewrite (step_finalized _ _ Hf) in Hwe. discriminate.
  - (* a lifecycle message reaches the host *)
    destruct (nth_error (lifecycle (posts (worker s))) (observed s))
      as [m|] eqn:Hm; [|discriminate].
    destruct (hstep (Message m) (host s)) as [h'|] eqn:Hhe; [|discriminate].
    inversion He; subst; clear He. simpl. rewrite Hlife in Hm.
    destruct (observed s) as [|[|n]].
    + destruct Hsync as [Hnone Hscope].
      assert (Ha : onclose_attached (host s) = true).
      { rewrite Hatt. destruct Hscope as [->|(reason & ->)]; reflexivity. }
      destruct (message_result _ _ _ Hhe Ha) as (Ho & Hsc & _).
      simpl in Hm. inversion Hm. subst m.
      rewrite Ho, Hsc, Hnone. split; [reflexivity|].
      destruct Hscope as [->|(reason & ->)]; simpl; eauto.
    + destruct Hsync as [Hnone Hscope].
      destruct (outcome (worker s)) as [[r|err]|] eqn:Hw;
        try (simpl in Hm; discriminate).
      destruct (finalized (worker s)) eqn:Hf; [|simpl in Hm; discriminate].
      simpl in Hm. inversion Hm. subst m.
      assert (Ha : onclose_attached (host s) = true).
      { rewrite Hatt.
        destruct Hscope as [->|[(reason & ->)|(reason & ->)]];
          reflexivity. }
      destruct (message_result _ _ _ Hhe Ha) as (Ho & Hsc & _).
      rewrite Hnone in Ho, Hsc.
      assert (Hclose : onclose (close_message r) None
                       = Some (completion_of r)) by (now destruct r).
      rewrite Hclose in Ho, Hsc.
      split; [reflexivity|]. split; [reflexivity|]. exists r.
      split; [reflexivity|]. split; [assumption|].
      rewrite Hsc.
      destruct Hscope as [->|[(reason & ->)|(reason & ->)]]; eauto.
    + exfalso. destruct Hsync as (_ & Hf & r & Hw & _).
      rewrite Hw, Hf in Hm. simpl in Hm. destruct n; discriminate.
  - (* a response reaches a caller *)
    destruct (first_response channel (posts (worker s))) as [r|];
      [|discriminate].
    destruct (hstep (Reply channel r) (host s)) as [h'|] eqn:Hhe;
      [|discriminate].
    inversion He; subst; clear He. simpl.
    destruct (call_reply_scope _ _ _ Hhe) as [Hsc Ho]; try discriminate.
    now rewrite Hsc, Ho.
  - (* a step of the worker *)
    destruct le as [ctl|b fn|i|i|b c0|]; try discriminate.
    all: match type of He with
         | match step ?we _ with _ => _ end = _ =>
             destruct (step we (worker s)) as [w'|] eqn:Hwe;
             [|discriminate];
             inversion He; subst; clear He; simpl;
             destruct (observed s) as [|[|n]]; try assumption;
             destruct Hsync as (_ & Hf & _);
             rewrite (step_finalized _ _ Hf) in Hwe; discriminate
         end.
Qed.

Lemma in_sync_run (d : TData) (events : list SystemEvent) (s : System) :
  sys_run events (start d) = Some s -> in_sync s.
Proof.
  revert events s. apply (sys_run_ind (fun _ s => in_sync s)).
  - unfold in_sync. simpl. auto.
  - intros events s e s' Hrun Hs He. eapply in_sync_step; eauto.
Qed.

(** X7: a host connected to a worker that runs [workerMain] never fails the
    handshake: the first message it sees is "open", so its resource is
    never rejected by the assertion, and its teardown is never aborted.  A
    host that has seen a message is no longer acquiring; unless its scope
    ended while it was acquiring, it has then made the handle and posted
    [init] with the configured data as its first control message. *)
Theorem handshake_succeeds (d : TData) (events : list SystemEvent)
    (s : System) :
  sys_run events (start d) = Some s ->
  (forall error, scope (host s) <> Rejected error)
  /\ (forall error, scope (host s) <> Aborted error)
  /\ (scope (host s) = Acquiring -> observed s = 0)
  /\ (observed s <> 0 ->
      (exists reason, scope (host s) = Dropped reason)
      \/ nth_error (posted (host s)) 0 = Some (Init d)).
Proof.
  intros Hrun. pose proof (in_sync_run _ _ _ Hrun) as Hsync.
  destruct (system_components _ _ _ Hrun) as ((hevents & Hh) & _ & _).
  pose proof (host_inv_run _ _ _ Hh) as (_ & _ & _ & Hlog).
  assert (Hcases : (observed s = 0
                    /\ (scope (host s) = Acquiring
                        \/ exists reason, scope (host s) = Dropped reason))
                   \/ (observed s <> 0
                       /\ (scope (host s) = Provided
                           \/ (exists reason, scope (host s) = Releasing reason)
                           \/ (exists reason captured,
                                 scope (host s) = Released reason captured)
                           \/ exists reason,
                                scope (host s) = Dropped reason))).
  { unfold in_sync in Hsync. destruct (observed s) as [|[|n]].
    - left. tauto.
    - right. split; [discriminate|].
      destruct Hsync as [_ [H|[H|H]]]; auto.
    - right. split; [discriminate|].
      destruct Hsync
        as (_ & _ & r & _ & _ & [H|[(reason & H)|H]]); eauto 6. }
  split; [|split; [|split]].
  - intros error Heq.
    destruct Hcases
      as [[_ [H|(r & H)]]|[_ [H|[(r & H)|[(r & c & H)|(r & H)]]]]];
      congruence.
  - intros error Heq.
    destruct Hcases
      as [[_ [H|(r & H)]]|[_ [H|[(r & H)|[(r & c & H)|(r & H)]]]]];
      congruence.
  - intros Hacq.
    destruct Hcases
      as [[H _]|[_ [H|[(r & H)|[(r & c & H)|(r & H)]]]]];
      congruence.
  - intros Hne.
    destruct Hcases
      as [[H _]|[_ [H|[(r & H)|[(r & c & H)|(r & H)]]]]];
      [contradiction| | | |eauto]; right; rewrite H in Hlog;
      destruct Hlog as (rest & -> & _); reflexivity.
Qed.

(** X8: the outcome that the handle gives is the worker's own: whenever
    the host's outcome is settled, the worker has finalized, and the host's
    outcome is resolved with the value its body returned, or rejected with
    the error its body threw or with "worker terminated", whichever the
    worker resolved first. *)
Theorem outcomes_agree (d : TData) (events : list SystemEvent) (s : System)
    (c : Completion TReturn) :
  sys_run events (start d) = Some s ->
  h_outcome (host s) = Some c ->
  finalized (worker s) = true
  /\ exists r, outcome (worker s) = Some (Returned r)
               /\ c = match r with
                      | Ok value => Returned value
                      | Err error => Thrown error
                      end
               /\ In (ToHost (close_message r)) (posts (worker s)).
Proof.
  intros Hrun Hc. pose proof (in_sync_run _ _ _ Hrun) as Hsync.
  unfold in_sync in Hsync. destruct (observed s) as [|[|n]].
  - destruct Hsync as [H _]. congruence.
  - destruct Hsync as [H _]. congruence.
  - destruct Hsync as (_ & Hf & r & Hw & Hh & _).
    split; [assumption|]. exists r. split; [assumption|].
    split; [destruct r; simpl in Hh; congruence|].
    destruct (system_components _ _ _ Hrun) as (_ & (wevents & Hwr & _) & _).
    destruct (posts_shape_run _ _ Hwr)
      as (responses & _ & [[Hf' _]|[_ (r' & Hr' & Hp)]]); [congruence|].
    rewrite Hp. replace r' with r by congruence.
    right. apply in_or_app. right. now left.
Qed.

Lemma In_first_response (p : MessagePort) (l : list Post)
    (r : Result TRecv) :
  In (ToPort p r) l -> first_response p l <> None.
Proof.
  induction l as [|[m|q r'] l IH]; simpl; intros Hin.
  - contradiction.
  - destruct Hin as [Hin|Hin]; [discriminate|auto].
  - destruct (Nat.eqb_spec q p) as [->|Hne]; [discriminate|].
    destruct Hin as [Hin|Hin]; [congruence|auto].
Qed.

(** X10: a worker that has finalized does nothing more: it dispatches no
    further control message and posts nothing, whatever the host does.  So
    a call of [send] that has no response on its channel when the worker
    finalizes, or that is made afterwards, is never resumed. *)
Theorem finalized_worker_is_silent (d : TData)
    (events later : list SystemEvent) (s s2 : System) :
  sys_run events (start d) = Some s ->
  finalized (worker s) = true ->
  sys_run later s = Some s2 ->
  worker s2 = worker s
  /\ dispatched s2 = dispatched s
  /\ forall p call c,
       first_response p (posts (worker s)) = None ->
       nth_error (calls (host s2)) p = Some call ->
       call_state call <> Resumed c.
Proof.
  intros Hrun Hf Hlater.
  assert (Hsame : worker s2 = worker s /\ dispatched s2 = dispatched s).
  { refine (sys_run_invariant
              (fun s' => worker s' = worker s /\ dispatched s' = dispatched s)
              _ later s s2 _ Hlater); [|auto].
    intros e s0 s1 [Hw Hd] He.
    destruct e as [value|reason| | |channel|le]; unfold sys_step in He;
      cbv beta iota in He.
    - destruct (hstep (CallSend value) (host s0)); [|discriminate].
      inversion He. auto.
    - destruct (hstep (Exit reason) (host s0)); [|discriminate].
      inversion He. auto.
    - destruct (nth_error (posted (host s0)) (dispatched s0)) as [ctl|];
        [|discriminate].
      rewrite Hw, (step_finalized _ _ Hf) in He. discriminate.
    - destruct (nth_error (lifecycle (posts (worker s0))) (observed s0));
        [|discriminate].
      destruct (hstep _ (host s0)); [|discriminate]. inversion He. auto.
    - destruct (first_response channel (posts (worker s0))); [|discriminate].
      destruct (hstep _ (host s0)); [|discriminate]. inversion He. auto.
    - rewrite Hw in He.
      destruct le as [ctl|b fn|i|i|b c0|]; try discriminate;
        rewrite (step_finalized _ _ Hf) in He; discriminate. }
  destruct Hsame as [Hw Hd]. split; [assumption|]. split; [assumption|].
  intros p call c Hnone Hcall Hst.
  assert (Hrun2 : sys_run (events ++ later) (start d) = Some s2)
    by (now rewrite sys_run_app, Hrun).
  destruct (answered_run _ _ _ Hrun2 p call c Hcall Hst) as (r & Hin & _).
  rewrite Hw in Hin. now apply (In_first_response _ _ _ Hin).
Qed.

Lemma skipn_cons_nth {A : Type} (l l' : list A) (k : nat) (x : A) :
  skipn k l = x :: l' -> nth_error l k = Some x /\ skipn (S k) l = l'.
Proof.
  revert k. induction l as [|a l IH]; intros [|k] H; simpl in *;
    try discriminate.
  - inversion H. auto.
  - destruct (IH _ H) as [H1 H2]. split; [assumption|].
    destruct l; simpl in *; [destruct k; discriminate|assumption].
Qed.

Lemma dispatch_all_facts (l : list WorkerControl) (w : Worker) :
  finalized (dispatch_all l w) = finalized w
  /\ posts (dispatch_all l w) = posts w
  /\ outcome (dispatch_all l w)
     = match outcome w with
       | Some c => Some c
       | None => if existsb is_close l
                 then Some (Returned (Err terminated)) else None
       end.
Proof.
  revert w. induction l as [|c l IH]; intros w; simpl.
  - repeat split. now destruct (outcome w).
  - destruct (IH (dispatch c w)) as (H1 & H2 & H3). unfold dispatch_all in *.
    rewrite H1, H2, H3. destruct c; simpl; repeat split;
      destruct (outcome w); reflexivity.
Qed.

(** The dispatch loop of a worker that is not finalized takes every control
    message the host has posted. *)
Lemma deliver_rest (l : list WorkerControl) :
  forall s,
    finalized (worker s) = false ->
    skipn (dispatched s) (posted (host s)) = l ->
    sys_run (repeat Deliver (List.length l)) s
    = Some (mkSystem (host s) (dispatch_all l (worker s))
              (dispatched s + List.length l) (observed s)).
Proof.
  induction l as [|c l IH]; intros s Hf Hskip;
    cbn [List.length repeat sys_run].
  - rewrite Nat.add_0_r. now destruct s.
  - destruct (skipn_cons_nth _ _ _ _ Hskip) as [Hn Hrest].
    assert (Hstep : sys_step Deliver s
                    = Some (mkSystem (host s) (dispatch c (worker s))
                              (S (dispatched s)) (observed s))).
    { unfold sys_step, step. now rewrite Hn, Hf. }
    rewrite Hstep, IH; cbn [host worker dispatched observed].
    + unfold dispatch_all. simpl. f_equal. f_equal. lia.
    + destruct c; assumption.
    + assumption.
Qed.

Lemma sys_step_notify (s : System) (m : LifecycleMessage) (h' : Host) :
  nth_error (lifecycle (posts (worker s))) (observed s) = Some m ->
  hstep (Message m) (host s) = Some h' ->
  sys_step Notify s
  = Some (mkSystem h' (worker s) (dispatched s) (S (observed s))).
Proof.
  intros Hn Hm. unfold sys_step. now rewrite Hn, Hm.
Qed.

Lemma sys_step_finish (s : System) (w' : Worker) :
  step Finish (worker s) = Some w' ->
  sys_step (Local Finish) s
  = Some (mkSystem (host s) w' (dispatched s) (observed s)).
Proof.
  intros Hf. unfold sys_step. now rewrite Hf.
Qed.

Lemma releasing_settles (reason : ExitReason) (r : Result TReturn)
    (h : Host) :
  scope h = Releasing reason -> onclose_attached h = true ->
  h_outcome h = None ->
  exists h3,
    hstep (Message (close_message r)) h = Some h3
    /\ scope h3 = Released reason (captured_of (completion_of r))
    /\ onclose_attached h3 = false
    /\ h_outcome h3 = Some (completion_of r).
Proof.
  intros Hs Ha Ho. simpl. rewrite Hs, Ha, Ho. eexists.
  split; [reflexivity|]. unfold finally_resume.
  destruct r as [v|e]; simpl; auto.
Qed.

Lemma Forall_repeat {A : Type} (P : A -> Prop) (x : A) (n : nat) :
  P x -> Forall P (repeat x n).
Proof.
  intros Hx. induction n; simpl; constructor; auto.
Qed.

(** X9: the teardown of a provided resource can always run to its end, and
    without the body, the handlers or the user doing anything: after the
    scope has ended, it is enough that the dispatch loop takes the control
    messages still waiting, that the worker finalizes, and that its
    terminal message reaches the host.  The host then has the worker's
    outcome, has captured it, and has removed its listener. *)
Theorem shutdown_completes (d : TData) (events : list SystemEvent)
    (s : System) (reason : ExitReason) :
  sys_run events (start d) = Some s ->
  scope (host s) = Provided ->
  exists schedule s',
    Forall runtime_step schedule
    /\ sys_run (UserExit reason :: schedule) s = Some s'
    /\ finalized (worker s') = true
    /\ onclose_attached (host s') = false
    /\ exists r,
         outcome (worker s') = Some (Returned r)
         /\ h_outcome (host s') = Some (completion_of r)
         /\ scope (host s')
            = Released reason (captured_of (completion_of r)).
Proof.
  intros Hrun Hprov.
  pose proof (in_sync_run _ _ _ Hrun) as Hsync.
  pose proof (system_lifecycle _ _ _ Hrun) as Hlife.
  destruct (system_components _ _ _ Hrun)
    as ((hevents & Hh) & (wevents & Hw & _) & Hk).
  pose proof (host_inv_run _ _ _ Hh) as (_ & _ & Hatt & _).
  rewrite Hprov in Hatt.
  assert (Hexit : exists h1, hstep (Exit reason) (host s) = Some h1).
  { simpl. rewrite Hprov. eauto. }
  destruct Hexit as (h1 & Hexit).
  destruct (exit_result _ _ _ Hexit Hprov) as (Ho1 & Hs1 & Ha1 & Hp1).
  assert (Hstep1 : sys_step (UserExit reason) s
                   = Some (mkSystem h1 (worker s) (dispatched s)
                             (observed s))).
  { unfold sys_step. now rewrite Hexit. }
  unfold in_sync in Hsync. destruct (observed s) as [|[|n]] eqn:Hobs.
  - destruct Hsync as [_ [Hacq|(r & Hacq)]]; congruence.
  - destruct Hsync as [Hnone _]. rewrite Hnone in Ho1, Hs1, Ha1.
    rewrite Hatt in Ha1.
    destruct (finalized (worker s)) eqn:Hf.
    + (* the worker has already finalized *)
      destruct (posts_shape_run _ _ Hw)
        as (responses & _ & [[Hf' _]|[_ (r & Hr & _)]]); [congruence|].
      rewrite Hr in Hlife.
      destruct (releasing_settles reason r h1 Hs1 Ha1 Ho1)
        as (h3 & Hm & Hs3 & Ha3 & Ho3).
      exists [Notify]. eexists. split.
      { constructor; [unfold runtime_step; auto|constructor]. }
      split.
      { cbn [sys_run]. rewrite Hstep1.
        rewrite (sys_step_notify _ (close_message r) h3);
          cbn [host worker dispatched observed]; auto.
        rewrite Hlife. reflexivity. }
      simpl. split; [assumption|]. split; [assumption|]. eauto.
    + (* the worker still runs *)
      set (l := skipn (dispatched s) (posted h1)).
      set (s1 := mkSystem h1 (worker s) (dispatched s) 1).
      pose proof (deliver_rest l s1 Hf eq_refl) as Hdeliver.
      destruct (dispatch_all_facts l (worker s)) as (Hf2 & Hp2 & Ho2).
      assert (Hclose : existsb is_close l = true).
      { unfold l. rewrite Hp1, skipn_app, existsb_app.
        replace (dispatched s - List.length (posted (host s))) with 0
          by lia.
        simpl. apply orb_true_r. }
      rewrite Hclose in Ho2.
      assert (Hout : exists r, outcome (dispatch_all l (worker s))
                               = Some (Returned r)).
      { rewrite Ho2. pose proof (run_outcome _ _ _ Hw) as Hro.
        simpl in Hro. rewrite Hro.
        destruct (hd_error (attempts wevents)); simpl; eauto. }
      destruct Hout as (r & Hr).
      rewrite Hf in Hf2.
      destruct (finish_enabled _ r Hf2 Hr) as (w3 & Hfin & Hf3 & Ho3 & Hp3).
      assert (Hlife3 : lifecycle (posts w3)
                       = [open_message; close_message r]).
      { rewrite Hp3, lifecycle_app, Hp2, Hlife. simpl.
        now destruct (outcome (worker s)) as [[]|]. }
      destruct (releasing_settles reason r h1 Hs1 Ha1 Ho1)
        as (h3 & Hm & Hs3 & Ha3 & Ho3').
      exists (repeat Deliver (List.length l) ++ [Local Finish; Notify]).
      eexists. split.
      { apply Forall_app. split.
        - apply Forall_repeat. unfold runtime_step. auto.
        - constructor; [unfold runtime_step; auto|].
          constructor; [unfold runtime_step; auto|constructor]. }
      split.
      { cbn [sys_run]. rewrite Hstep1. fold s1.
        rewrite sys_run_app, Hdeliver. cbn [sys_run].
        rewrite (sys_step_finish _ w3);
          cbn [host worker dispatched observed]; [|assumption].
        rewrite (sys_step_notify _ (close_message r) h3);
          cbn [host worker dispatched observed]; auto.
        rewrite Hlife3. reflexivity. }
      simpl. split; [assumption|]. split; [assumption|]. eauto.
  - (* the host has already seen the terminal message *)
    destruct Hsync as (_ & Hf & r & Hr & Hhost & _).
    rewrite Hhost in Ho1, Hs1, Ha1.
    exists []. eexists. split; [constructor|]. split.
    { cbn [sys_run]. rewrite Hstep1. reflexivity. }
    simpl. split; [assumption|]. split; [assumption|]. eauto.
Qed.

(** X11: whatever control messages a worker is fed, the responses it posts
    on a port are at most as many as the [send] messages that carried the
    port, times the [forEach] subscriptions of the body: it posts nothing on
    a port that no request carried, and nothing at all while the body has
    never iterated. *)
Theorem responses_bounded (events : list Event) (w : Worker)
    (p : MessagePort) :
  run events boot = Some w ->
  count_port p (posts w)
  <= port_count p (requests (controls events))
     * List.length (subscribed events).
Proof.
  intros Hrun. destruct (pending_run p _ _ Hrun) as [Hbound _].
  eapply Nat.le_trans; [apply count_port_pending|exact Hbound].
Qed.

(** X12: an acquisition that fails the handshake is not torn down: the
    host never posts [close] (or anything else) to the worker, and the
    listener [onclose] stays attached, so a later "close" message of the
    worker still settles the outcome of the failed resource. *)
Theorem failed_handshake_is_not_torn_down (d : TData)
    (m : LifecycleMessage) (later : list HostEvent) (h : Host) :
  type m <> "open" ->
  hrun (Message m :: later) (acquire d) = Some h ->
  posted h = []
  /\ onclose_attached h = true
  /\ h_outcome h = first_close (Message m :: later).
Proof.
  intros Hne Hrun.
  assert (Hrej : scope h = Rejected (assertion_error (type m))
                 /\ posted h = [] /\ calls h = []).
  { revert Hrun. simpl.
    destruct (String.eqb_spec (type m) "open") as [Heq|_]; [contradiction|].
    intros Hrun.
    refine (hrun_invariant
              (fun h => scope h = Rejected (assertion_error (type m))
                        /\ posted h = [] /\ calls h = [])
              (rejected_step _) later _ h _ Hrun).
    simpl. auto. }
  destruct Hrej as (Hs & Hp & _).
  pose proof (host_inv_run _ _ _ Hrun) as (_ & _ & Hatt & _).
  rewrite Hs in Hatt.
  assert (Hinit : onclose_attached (acquire d) = false ->
                  h_outcome (acquire d) <> None) by (simpl; discriminate).
  split; [assumption|]. split; [assumption|].
  rewrite (hrun_outcome _ _ _ Hinit Hrun). reflexivity.
Qed.

End Protocol.

(** * The statements at concrete inputs *)

(** A worker that is told to close twice while its body runs, whose body
    then returns: one outcome, the first, and one [close] message. *)
Lemma single_terminal_outcome_witness :
  exists w,
    @run string string string string
      [Control (Init "cfg"); Control Close; BodyEnd 0 (Returned "done");
       Control Close; Finish] boot = Some w
    /\ outcome w = Some (Returned (Err terminated))
    /\ count_type "close" (posts w) = 1.
Proof.
  eexists. split; [reflexivity|].
  destruct (@single_terminal_outcome string string string string
              [Control (Init "cfg"); Control Close;
               BodyEnd 0 (Returned "done"); Control Close; Finish]
              _ eq_refl) as (H1 & _ & H3 & _).
  split; [exact H1|exact H3].
Defined.

Lemma lifecycle_order_witness :
  exists w,
    @run string string string string
      [Control (Init "cfg"); ForEach 0 (fun _ => Some (Returned "pong"));
       Control (Send "ping" 0); Iterate 0; Answer 0; Control Close; Finish]
      boot = Some w
    /\ count_type "open" (posts w) = 1
    /\ posts w = [ToHost open_message; ToPort 0 (Ok "pong");
                  ToHost (close_message (Err terminated))].
Proof.
  eexists. split; [reflexivity|].
  destruct (@lifecycle_order string string string string
              [Control (Init "cfg");
               ForEach 0 (fun _ => Some (Returned "pong"));
               Control (Send "ping" 0); Iterate 0; Answer 0; Control Close;
               Finish] _ eq_refl)
    as (responses & tail & _ & _ & Hopen & _).
  split; [exact Hopen|reflexivity].
Defined.

Lemma close_before_completion_witness :
  finalized (@dispatch string string string string (Init "cfg") boot) = false
  /\ outcome (@dispatch string string string string (Init "cfg") boot) = None
  /\ exists s,
       @sys_run string string string string
         [Notify; Deliver; UserExit Completed; Deliver; Local Finish; Notify]
         (start "cfg") = Some s
       /\ outcome (worker s) = Some (Returned (Err terminated))
       /\ h_outcome (host s) = Some (Thrown terminated).
Proof.
  split; [reflexivity|]. split; [reflexivity|].
  destruct (@close_before_completion string string string string
              (dispatch (Init "cfg") boot) eq_refl eq_refl) as [_ Hsys].
  destruct (Hsys "cfg" Completed) as (s & Hrun & _ & Ho & Hh & _).
  exists s. auto.
Defined.

(** A request whose handler throws, while the handler of another request
    is running. *)
Lemma request_failure_is_local_witness :
  exists w',
    @run string string string string
      [Control (Send "ping" 7); Iterate 0; Answer 1]
      (mkWorker None [mkBody "cfg" true]
         [mkSubscription 0 (fun _ => Some (Thrown (mkError "boom"))) []]
         [mkHandler 0 1 (Some (Returned "ok"))]
         false [ToHost open_message]) = Some w'
    /\ posts w' = [ToHost open_message; ToPort 7 (Err (mkError "boom"))]
    /\ handlers w' = [mkHandler 0 1 (Some (Returned "ok"))]
    /\ outcome w' = None.
Proof.
  destruct (@request_failure_is_local string string string string
              (mkWorker None [mkBody "cfg" true]
                 [mkSubscription 0 (fun _ => Some (Thrown (mkError "boom")))
                    []]
                 [mkHandler 0 1 (Some (Returned "ok"))]
                 false [ToHost open_message]) eq_refl) as [Hrequest _].
  destruct (Hrequest 0 _ "ping" 7 _ eq_refl eq_refl eq_refl)
    as (w' & Hrun & Hposts & Hhandlers & _ & Hout & _).
  exists w'. split; [exact Hrun|]. split; [exact Hposts|].
  split; [exact Hhandlers|exact Hout].
Defined.

(** A request whose handler is still running when the worker is told to
    close gets no result: the worker finalizes and the handler task is
    halted.  A request that two [forEach] of the body iterate gets two. *)
Lemma results_of_dispatched_send :
  option_map
    (fun w => (posts w, count_port 0 (posts w), handlers w, finalized w))
    (@run string string string string
       [Control (Init "cfg"); ForEach 0 (fun _ => Some (Returned "pong"));
        Control (Send "ping" 0); Iterate 0; Control Close; Finish] boot)
  = Some ([ToHost open_message; ToHost (close_message (Err terminated))],
          0, [], true)
  /\ option_map
       (fun w => (posts w, count_port 0 (posts w)))
       (@run string string string string
          [Control (Init "cfg");
           ForEach 0 (fun _ => Some (Returned "first"));
           ForEach 0 (fun _ => Some (Returned "second"));
           Control (Send "ping" 0); Iterate 0; Iterate 1;
           Answer 0; Answer 0] boot)
     = Some ([ToHost open_message; ToPort 0 (Ok "first");
              ToPort 0 (Ok "second")], 2).
Proof.
  split; vm_compute; reflexivity.
Qed.

(** The scope ends while the first message of the worker is still awaited:
    [close] is never posted and the listener is never removed, whatever
    the worker posts afterwards. *)
Lemma exit_while_acquiring_skips_teardown :
  option_map
    (fun h => (scope h, posted h, onclose_attached h))
    (@hrun string string string string
       [Exit Cancelled; Message open_message;
        Message (close_message (Ok "done"))] (acquire "cfg"))
  = Some (Dropped Cancelled, [], true).
Proof.
  vm_compute. reflexivity.
Qed.

(** The scope of a provided resource is cancelled, then the worker's
    terminal message arrives with a failure. *)
Lemma teardown_order_witness :
  exists h',
    @hstep string string string string (Exit Cancelled)
      (mkHost "cfg" Provided None true [Init "cfg"] []) = Some h'
    /\ posted h' = [Init "cfg"; Close]
    /\ scope h' = Releasing Cancelled
    /\ exists h3,
         hstep (Message (close_message (Err terminated))) h' = Some h3
         /\ scope h3 = Released Cancelled (Err terminated)
         /\ onclose_attached h3 = false.
Proof.
  destruct (@teardown_order string string string string "cfg"
              [Message open_message]
              (mkHost "cfg" Provided None true [Init "cfg"] []) Cancelled
              eq_refl eq_refl) as (_ & h' & Hexit & Hposted & Hlater).
  exists h'. split; [exact Hexit|]. split; [exact Hposted|].
  destruct (Hlater [] h' eq_refl) as (_ & _ & Hcase & Hsettle).
  assert (Ho : h_outcome h' = None).
  { simpl in Hexit. inversion Hexit. reflexivity. }
  rewrite Ho in Hcase. destruct Hcase as [Hscope _].
  split; [exact Hscope|].
  destruct (Hsettle (Err terminated) Ho) as (h3 & H3 & _ & Hs3 & Ha3).
  exists h3. auto.
Defined.

Lemma handshake_witness :
  mkLifecycle (TReturn := string) "ready" None <> open_message
  /\ exists h,
       @hrun string string string string
         [Message (mkLifecycle "ready" None)] (acquire "cfg") = Some h
       /\ posted h = []
       /\ scope h = Rejected (assertion_error "ready").
Proof.
  split; [discriminate|].
  eexists. split; [reflexivity|].
  destruct (@handshake string string string string "cfg")
    as (_ & _ & Hrej & _).
  destruct (Hrej (mkLifecycle "ready" None) [] _
              ltac:(simpl; discriminate) eq_refl) as (Hs & Hp & _).
  split; [exact Hp|exact Hs].
Defined.

Lemma send_round_trip_witness :
  exists s,
    @sys_run string string string string
      [Notify; Deliver; Local (ForEach 0 (fun _ => Some (Returned "pong")));
       UserCall "ping"; Deliver; Local (Iterate 0); Local (Answer 0);
       Respond 0] (start "cfg") = Some s
    /\ posts (worker s) = [ToHost open_message; ToPort 0 (Ok "pong")]
    /\ calls (host s) = [mkCall "ping" (Resumed (Returned "pong"))].
Proof.
  destruct (@send_round_trip string string string string) as (_ & Htrip & _).
  destruct (Htrip "cfg" (fun _ => Some (Returned "pong")) "ping"
              (Returned "pong") eq_refl)
    as (s & Hrun & _ & Hposts & Hcalls & _).
  exists s. auto.
Defined.



Lemma init_starts_body_witness :
  phase (@boot string string string string) = AwaitingInit
  /\ exists w',
       step (Control (Init "cfg")) (@boot string string string string)
       = Some w'
       /\ phase w' = Running
       /\ bodies w' = [mkBody "cfg" true].
Proof.
  split; [reflexivity|].
  destruct (@init_starts_body string string string string) as (Hstep & _).
  destruct (Hstep boot "cfg" eq_refl) as (w' & H1 & H2 & H3 & _).
  exists w'. auto.
Defined.

(** The host calls [send] before the body has subscribed. *)
Lemma unsubscribed_send_is_dropped_witness :
  exists s s1,
    @sys_run string string string string
      [Notify; Deliver; UserCall "ping"] (start "cfg") = Some s
    /\ nth_error (posted (host s)) (dispatched s) = Some (Send "ping" 0)
    /\ sent (worker s) = []
    /\ sys_step Deliver s = Some s1
    /\ worker s1 = worker s
    /\ count_port 0 (posts (worker s1)) = 0.
Proof.
  eexists.
  assert (Hrun : @sys_run string string string string
                   [Notify; Deliver; UserCall "ping"] (start "cfg")
                 = Some _) by (vm_compute; reflexivity).
  destruct (@unsubscribed_send_is_dropped string string string string "cfg"
              [Notify; Deliver; UserCall "ping"] _ "ping" 0
              Hrun eq_refl eq_refl eq_refl)
    as (s1 & Hstep & Hw & _ & Hlater).
  exists s1. split; [exact Hrun|]. split; [reflexivity|].
  split; [reflexivity|]. split; [exact Hstep|]. split; [exact Hw|].
  destruct (Hlater [] s1 eq_refl) as [Hcount _]. exact Hcount.
Defined.

(** * The further properties at concrete inputs *)

(** X1: the worker announces itself, then closes with a value, then with an
    error: the value stands. *)
Lemma host_outcome_first_close_witness :
  exists h,
    @hrun string string string string
      [Message open_message; Message (close_message (Ok "first"));
       Message (close_message (Err terminated))] (acquire "cfg") = Some h
    /\ h_outcome h = Some (Returned "first").
Proof.
  eexists. split; [vm_compute; reflexivity|].
  exact (@host_outcome_first_close string string string string "cfg"
           [Message open_message; Message (close_message (Ok "first"));
            Message (close_message (Err terminated))] _
           ltac:(vm_compute; reflexivity)).
Defined.

Lemma control_order_witness :
  exists h,
    @hrun string string string string
      [Message open_message; CallSend "a"; Exit Completed; CallSend "b"]
      (acquire "cfg") = Some h
    /\ posted h = [Init "cfg"; Send "a" 0; Close; Send "b" 1]
    /\ without_close (posted h) = [Init "cfg"; Send "a" 0; Send "b" 1]
    /\ List.length (filter is_close (posted h)) = 1.
Proof.
  eexists. split; [vm_compute; reflexivity|]. split; [reflexivity|].
  destruct (@control_order string string string string "cfg"
              [Message open_message; CallSend "a"; Exit Completed;
               CallSend "b"] _ ltac:(vm_compute; reflexivity))
    as (Hlog & Hclose & _).
  split; [exact Hlog|exact Hclose].
Defined.

(** X3: a call that was answered keeps its answer through the teardown. *)
Lemma call_result_final_witness :
  exists h',
    @hrun string string string string
      [Exit Cancelled; Message (close_message (Err terminated))]
      (mkHost "cfg" Provided None true [Init "cfg"; Send "a" 0]
         [mkCall "a" (Resumed (Returned "x"))]) = Some h'
    /\ nth_error (calls h') 0 = Some (mkCall "a" (Resumed (Returned "x")))
    /\ hstep (Reply 0 (Ok "y")) h' = None.
Proof.
  eexists. split; [vm_compute; reflexivity|].
  destruct (@call_result_final string string string string
              [Exit Cancelled; Message (close_message (Err terminated))]
              (mkHost "cfg" Provided None true [Init "cfg"; Send "a" 0]
                 [mkCall "a" (Resumed (Returned "x"))])
              _ 0 (mkCall "a" (Resumed (Returned "x")))
              ltac:(vm_compute; reflexivity) eq_refl
              ltac:(simpl; discriminate)) as [Hcall Hreply].
  split; [exact Hcall|exact (Hreply (Ok "y"))].
Defined.

(** X5: two requests are dispatched and the loop iterates once: the first
    is being handled, the second waits. *)
Lemma requests_in_order_witness :
  exists w',
    @run string string string string
      [Control (Send "a" 0); Control (Send "b" 1); Iterate 0]
      (mkWorker None [mkBody "cfg" true]
         [mkSubscription 0 (fun v => Some (Returned v)) []] []
         false [ToHost open_message]) = Some w'
    /\ handlers w' = [mkHandler 0 0 (Some (Returned "a"))]
    /\ option_map sub_queue (nth_error (sent w') 0) = Some [("b", 1)].
Proof.
  destruct (@requests_in_order string string string string
              (mkWorker None [mkBody "cfg" true]
                 [mkSubscription 0 (fun v => Some (Returned v)) []] []
                 false [ToHost open_message])
              0 _ [("a", 0); ("b", 1)] 1 eq_refl eq_refl
              ltac:(simpl; lia))
    as (w' & Hrun & Hhandlers & Hsent & _).
  exists w'. split; [exact Hrun|]. split; [exact Hhandlers|].
  rewrite Hsent. reflexivity.
Defined.

(** X6: the body returns while a handler is running. *)
Lemma tasks_owned_witness :
  exists w,
    @run string string string string
      [Control (Init "cfg"); ForEach 0 (fun _ => None);
       Control (Send "a" 0); Iterate 0; BodyEnd 0 (Returned "done")] boot
    = Some w
    /\ owned w
    /\ handlers w = [].
Proof.
  eexists. split; [vm_compute; reflexivity|].
  destruct (@tasks_owned string string string string
              [Control (Init "cfg"); ForEach 0 (fun _ => None);
               Control (Send "a" 0); Iterate 0; BodyEnd 0 (Returned "done")]
              _ ltac:(vm_compute; reflexivity)) as [Howned _].
  split; [exact Howned|reflexivity].
Defined.

Lemma handshake_succeeds_witness :
  exists s,
    @sys_run string string string string [Notify; Deliver] (start "cfg")
    = Some s
    /\ observed s <> 0
    /\ ((exists reason, scope (host s) = Dropped reason)
        \/ nth_error (posted (host s)) 0 = Some (Init "cfg")).
Proof.
  eexists. split; [vm_compute; reflexivity|].
  split; [simpl; discriminate|].
  destruct (@handshake_succeeds string string string string "cfg"
              [Notify; Deliver] _ ltac:(vm_compute; reflexivity))
    as (_ & _ & _ & Hinit).
  apply Hinit. simpl. discriminate.
Defined.

(** X8: the body returns and the handle gives what it returned. *)
Lemma outcomes_agree_witness :
  exists s,
    @sys_run string string string string
      [Notify; Deliver; Local (BodyEnd 0 (Returned "done")); Local Finish;
       Notify] (start "cfg") = Some s
    /\ h_outcome (host s) = Some (Returned "done")
    /\ finalized (worker s) = true.
Proof.
  eexists. split; [vm_compute; reflexivity|]. split; [reflexivity|].
  destruct (@outcomes_agree string string string string "cfg"
              [Notify; Deliver; Local (BodyEnd 0 (Returned "done"));
               Local Finish; Notify] _ (Returned "done")
              ltac:(vm_compute; reflexivity) eq_refl) as [Hf _].
  exact Hf.
Defined.

(** X9: the scope is cancelled while a request waits undispatched. *)
Lemma shutdown_completes_witness :
  exists s,
    @sys_run string string string string
      [Notify; Deliver; UserCall "ping"] (start "cfg") = Some s
    /\ scope (host s) = Provided
    /\ exists schedule s',
         sys_run (UserExit Cancelled :: schedule) s = Some s'
         /\ finalized (worker s') = true
         /\ onclose_attached (host s') = false.
Proof.
  eexists. split; [vm_compute; reflexivity|]. split; [reflexivity|].
  destruct (@shutdown_completes string string string string "cfg"
              [Notify; Deliver; UserCall "ping"] _ Cancelled
              ltac:(vm_compute; reflexivity) eq_refl)
    as (schedule & s' & _ & Hrun & Hf & Ha & _).
  exists schedule, s'. auto.
Defined.

(** X10: the body has returned and the worker has finalized; a call made
    afterwards stays suspended. *)
Lemma finalized_worker_is_silent_witness :
  exists s s2,
    @sys_run string string string string
      [Notify; Deliver; Local (BodyEnd 0 (Returned "done")); Local Finish]
      (start "cfg") = Some s
    /\ finalized (worker s) = true
    /\ sys_run [UserCall "ping"] s = Some s2
    /\ worker s2 = worker s
    /\ calls (host s2) = [mkCall "ping" Pending].
Proof.
  eexists. eexists. split; [vm_compute; reflexivity|].
  split; [reflexivity|]. split; [vm_compute; reflexivity|].
  split; [|reflexivity].
  match goal with
  | |- worker ?b = worker ?a =>
      exact (proj1 (@finalized_worker_is_silent string string string string
                      "cfg"
                      [Notify; Deliver; Local (BodyEnd 0 (Returned "done"));
                       Local Finish] [UserCall "ping"] a b
                      ltac:(vm_compute; reflexivity) eq_refl
                      ltac:(vm_compute; reflexivity)))
  end.
Defined.

(** X11: the body never iterates, so nothing is posted on the port. *)
Lemma responses_bounded_witness :
  exists w,
    @run string string string string
      [Control (Init "cfg"); Control (Send "a" 0); Control (Send "b" 0)] boot
    = Some w
    /\ count_port 0 (posts w) <= 0.
Proof.
  eexists. split; [vm_compute; reflexivity|].
  exact (@responses_bounded string string string string
           [Control (Init "cfg"); Control (Send "a" 0); Control (Send "b" 0)]
           _ 0 ltac:(vm_compute; reflexivity)).
Defined.

(** X12: the first message is not "open"; a later "close" still settles the
    outcome. *)
Lemma failed_handshake_is_not_torn_down_witness :
  exists h,
    @hrun string string string string
      [Message (mkLifecycle "ready" None);
       Message (close_message (Ok "late"))] (acquire "cfg") = Some h
    /\ posted h = []
    /\ onclose_attached h = true
    /\ h_outcome h = Some (Returned "late").
Proof.
  eexists. split; [vm_compute; reflexivity|].
  exact (@failed_handshake_is_not_torn_down string string string string
           "cfg" (mkLifecycle "ready" None)
           [Message (close_message (Ok "late"))] _
           ltac:(simpl; discriminate) ltac:(vm_compute; reflexivity)).
Defined.
